(** * Notely frontend: stores, HTTP gateway and markdown synopsis

    A shallow embedding of the client-side core of the Notely frontend:
    - [Js]        the JavaScript values that reach the code from the network,
    - [Gateway]   the response interceptor of [src/utils/api.ts],
    - [Session]   the authentication store ([useAuthStore]),
    - [NoteStore] the note store ([src/stores/noteStore.ts]),
    - [Markdown]  [markdownToHtml] and [extractSynopsis].

    Asynchronous operations are modelled by explicit state passing: the
    outcome of the awaited HTTP call is an argument of the operation, and
    the operation returns the final store together with how it completed
    (returned a value, or re-threw the error it caught). *)

From stdpp Require Import gmap strings list.
From Stdlib Require Import ZArith NArith.

Local Open Scope string_scope.
Local Open Scope list_scope.
Local Open Scope nat_scope.
#[local] Set Warnings "-register-all".

(** ** JavaScript values *)

Module Js.

(** JSON-shaped values, as [axios] hands them to the interceptor in
    [error.response.data].  Numbers are kept integral: only their
    truthiness and their [typeof] matter here. *)
Inductive value : Type :=
| Undefined
| Null
| Bool (b : bool)
| Num (n : Z)
| Str (s : string)
| Arr (items : list value)
| Obj (fields : list (string * value)).

Inductive type_tag : Type :=
| TUndefined | TObject | TBoolean | TNumber | TString.

Global Instance type_tag_eq_dec : EqDecision type_tag.
Proof. solve_decision. Defined.

(** [typeof v]; note [typeof null === 'object'] and arrays are objects. *)
Definition typeof (v : value) : type_tag :=
  match v with
  | Undefined => TUndefined
  | Null => TObject
  | Bool _ => TBoolean
  | Num _ => TNumber
  | Str _ => TString
  | Arr _ => TObject
  | Obj _ => TObject
  end.

(** ToBoolean: [undefined], [null], [false], [0] and [""] are falsy. *)
Definition truthy (v : value) : bool :=
  match v with
  | Undefined | Null => false
  | Bool b => b
  | Num n => negb (n =? 0)%Z
  | Str s => negb (String.eqb s "")
  | Arr _ | Obj _ => true
  end.

Fixpoint assoc (k : string) (fields : list (string * value)) : value :=
  match fields with
  | [] => Undefined
  | (k', v) :: rest => if String.eqb k k' then v else assoc k rest
  end.

(** Property read [v.k] for a non-index key: only plain objects carry
    own data properties. *)
Definition get (v : value) (k : string) : value :=
  match v with
  | Obj fields => assoc k fields
  | _ => Undefined
  end.

(** Truthiness of an optional string ([undefined] or a string). *)
Definition truthy_str (o : option string) : bool :=
  match o with
  | Some s => negb (String.eqb s "")
  | None => false
  end.

End Js.

(** A JavaScript [Error]: the stores only read its [message]. *)
Record Error := mkError { err_message : string }.

(** What awaiting a gateway call yields. *)
Inductive Outcome (A : Type) : Type :=
| Resolved (a : A)
| Rejected (e : Error).
Arguments Resolved {A} a.
Arguments Rejected {A} e.

(** How an operation of a store completes. *)
Inductive Completion (A : Type) : Type :=
| Returned (a : A)
| Thrown (e : Error).
Arguments Returned {A} a.
Arguments Thrown {A} e.

(** [x || d] on strings. *)
Definition or_default (m d : string) : string :=
  if String.eqb m "" then d else m.

(** HTTP requests, as far as the stores determine them. *)
Inductive Method := GET | POST | PUT | PATCH | DELETE.
Record Request := mkRequest { req_method : Method; req_endpoint : string }.

(** ** The HTTP gateway: response interceptor *)

Module Gateway.

Record AxiosResponse := mkResponse {
  data : Js.value;
  statusText : option string
}.

Record AxiosError := mkAxiosError {
  response : option AxiosResponse;
  message : option string
}.

Definition fallback : string := "Something went wrong".

(** [error.response?.data] *)
Definition response_data (e : AxiosError) : Js.value :=
  match response e with
  | Some r => data r
  | None => Js.Undefined
  end.

(** [error.response?.statusText] *)
Definition response_statusText (e : AxiosError) : option string :=
  match response e with
  | Some r => statusText r
  | None => None
  end.

Section Interceptor.
(** Library functions the interceptor calls. *)
Variable JSON_stringify : Js.value → string.
Variable ToString : Js.value → string.

(** The string [new Error(v)] carries as its message. *)
Definition error_text (v : Js.value) : string :=
  match v with
  | Js.Str s => s
  | _ => ToString v
  end.

(** The error handler of the response interceptor (api.ts 108-134). *)
Definition on_rejected (error : AxiosError) : Error :=
  let d := response_data error in
  let message :=
    if Js.truthy d then
      if bool_decide (Js.typeof d = Js.TObject) && Js.truthy (Js.get d "message")
      then error_text (Js.get d "message")
      else if bool_decide (Js.typeof d = Js.TString)
      then error_text d
      else if bool_decide (Js.typeof d = Js.TObject)
      then JSON_stringify d
      else fallback
    else if Js.truthy_str (message error)
    then default "" (message error)
    else if Js.truthy_str (response_statusText error)
    then default "" (response_statusText error)
    else fallback
  in mkError message.

(** *** The precedence list, as the specification words it *)

(** One rule: whether it applies to the error, and the message it
    gives when it does. *)
Definition rule : Type := (bool * string)%type.

Definition is_structured (d : Js.value) : bool :=
  Js.truthy d && bool_decide (Js.typeof d = Js.TObject).

Definition spec_rules (error : AxiosError) : list rule :=
  let d := response_data error in
  [ (* 1: message field of a structured body *)
    (is_structured d && Js.truthy (Js.get d "message"),
     error_text (Js.get d "message"));
    (* 2: the body itself when it is a plain string *)
    (Js.truthy d && bool_decide (Js.typeof d = Js.TString), error_text d);
    (* 3: dump of a structured body without message *)
    (is_structured d && negb (Js.truthy (Js.get d "message")),
     JSON_stringify d);
    (* 4: transport-level description *)
    (Js.truthy_str (message error), default "" (message error));
    (* 5: protocol status text *)
    (Js.truthy_str (response_statusText error),
     default "" (response_statusText error));
    (* 6: generic fallback *)
    (true, fallback) ].

Fixpoint first_applicable (rs : list rule) : string :=
  match rs with
  | [] => fallback
  | (true, m) :: _ => m
  | (false, _) :: rest => first_applicable rest
  end.

Definition spec_message (error : AxiosError) : string :=
  first_applicable (spec_rules error).

(** A body that is present (truthy) yet neither a string nor an
    object: a non-zero number or [true]. *)
Definition opaque_body (d : Js.value) : bool :=
  Js.truthy d
  && negb (bool_decide (Js.typeof d = Js.TObject))
  && negb (bool_decide (Js.typeof d = Js.TString)).

End Interceptor.

End Gateway.


(** ** The session store ([useAuthStore]) *)

Module Session.

Record User := mkUser {
  id : string;
  email : string;
  username : string;
  firstName : option string;
  lastName : option string;
  profileImage : option string;
  createdAt : string;
  updatedAt : string
}.

Record LoginCredentials := mkLoginCredentials {
  cred_email : option string;
  cred_username : option string;
  cred_emailOrUsername : option string;
  cred_password : string
}.

Record RegisterData := mkRegisterData {
  reg_username : string;
  reg_email : string;
  reg_password : string;
  reg_firstName : option string;
  reg_lastName : option string
}.

Record AuthResponse := mkAuthResponse {
  resp_user : User;
  resp_token : string
}.

Record PasswordUpdate := mkPasswordUpdate {
  currentPassword : string;
  newPassword : string
}.

Record ProfileUpdate := mkProfileUpdate {
  upd_username : option string;
  upd_firstName : option string;
  upd_lastName : option string;
  upd_email : option string;
  upd_profileImage : option string
}.

(** The data fields of [AuthState]; [None] is [null]. *)
Record AuthState := mkAuthState {
  user : option User;
  token : option string;
  loading : bool;
  error : option string;
  isAuthenticated : bool
}.

(** The store in its browser: the state, [localStorage], and the
    requests handed to the gateway so far (most recent first). *)
Record World := mkWorld {
  auth : AuthState;
  localStorage : gmap string string;
  sent : list Request
}.

(** Field updates, the building blocks of zustand's [set(partial)]. *)
Definition set_user (u : option User) (s : AuthState) : AuthState :=
  mkAuthState u (token s) (loading s) (error s) (isAuthenticated s).
Definition set_token (t : option string) (s : AuthState) : AuthState :=
  mkAuthState (user s) t (loading s) (error s) (isAuthenticated s).
Definition set_loading (b : bool) (s : AuthState) : AuthState :=
  mkAuthState (user s) (token s) b (error s) (isAuthenticated s).
Definition set_error (e : option string) (s : AuthState) : AuthState :=
  mkAuthState (user s) (token s) (loading s) e (isAuthenticated s).
Definition set_isAuthenticated (b : bool) (s : AuthState) : AuthState :=
  mkAuthState (user s) (token s) (loading s) (error s) b.

Definition set (f : AuthState → AuthState) (w : World) : World :=
  mkWorld (f (auth w)) (localStorage w) (sent w).

Definition setItem (k v : string) (w : World) : World :=
  mkWorld (auth w) (<[k := v]> (localStorage w)) (sent w).

Definition removeItem (k : string) (w : World) : World :=
  mkWorld (auth w) (delete k (localStorage w)) (sent w).

(** Handing a request to the gateway. *)
Definition send (m : Method) (endpoint : string) (w : World) : World :=
  mkWorld (auth w) (localStorage w) (mkRequest m endpoint :: sent w).

(** What [JSON.parse] does with a stored string: throw, or produce a
    value, read at its declared type [User]; [Parsed None] stands for a
    falsy value such as [null]. *)
Inductive ParseResult :=
| SyntaxError
| Parsed (v : option User).

Section Store.
Variable JSON_stringify : User → string.
Variable JSON_parse : string → ParseResult.

Definition setAuthData (u : User) (t : string) (w : World) : World :=
  setItem "user" (JSON_stringify u) (setItem "token" t w).

Definition clearAuthData (w : World) : World :=
  removeItem "user" (removeItem "token" w).

Record InitialState := mkInitialState {
  init_user : option User;
  init_token : option string;
  init_isAuthenticated : bool
}.

(** [getInitialState]; [None] when [JSON.parse] throws. *)
Definition getInitialState (ls : gmap string string) : option InitialState :=
  let token := ls !! "token" in
  let userStr := ls !! "user" in
  let parsed :=
    if Js.truthy_str userStr
    then JSON_parse (default "" userStr)
    else Parsed None in
  match parsed with
  | SyntaxError => None
  | Parsed user =>
      Some (mkInitialState user token
              (Js.truthy_str token && bool_decide (is_Some user)))
  end.

(** The state [create] builds the store with. *)
Definition create (ls : gmap string string) : option AuthState :=
  match getInitialState ls with
  | Some i =>
      Some (mkAuthState (init_user i) (init_token i) false None
              (init_isAuthenticated i))
  | None => None
  end.

Definition boot (st : AuthState) (ls : gmap string string) : World :=
  mkWorld st ls [].

Definition login (credentials : LoginCredentials)
    (o : Outcome AuthResponse) (w : World) : World * Completion unit :=
  let w := set (set_loading true ∘ set_error None) w in
  let w := send POST "/api/auth/login" w in
  match o with
  | Resolved response =>
      let user := resp_user response in
      let token := resp_token response in
      let w := setAuthData user token w in
      (set (set_user (Some user) ∘ set_token (Some token)
            ∘ set_isAuthenticated true ∘ set_loading false) w,
       Returned tt)
  | Rejected error =>
      (set (set_error (Some (or_default (err_message error) "Login failed"))
            ∘ set_loading false) w,
       Thrown error)
  end.

Definition register (data : RegisterData)
    (o : Outcome AuthResponse) (w : World) : World * Completion unit :=
  let w := set (set_loading true ∘ set_error None) w in
  let w := send POST "/api/auth/register" w in
  match o with
  | Resolved response =>
      let user := resp_user response in
      let token := resp_token response in
      let w := setAuthData user token w in
      (set (set_user (Some user) ∘ set_token (Some token)
            ∘ set_isAuthenticated true ∘ set_loading false) w,
       Returned tt)
  | Rejected error =>
      (set (set_error
              (Some (or_default (err_message error) "Registration failed"))
            ∘ set_loading false) w,
       Thrown error)
  end.

Definition logout (w : World) : World * Completion unit :=
  let w := clearAuthData w in
  (set (set_user None ∘ set_token None ∘ set_isAuthenticated false
        ∘ set_error None) w,
   Returned tt).

(** The awaited response is [{ user }]. *)
Definition updateProfile (data : ProfileUpdate)
    (o : Outcome User) (w : World) : World * Completion unit :=
  let w := set (set_loading true ∘ set_error None) w in
  let w := send PUT "/api/user/profile" w in
  match o with
  | Resolved updatedUser =>
      let w := setItem "user" (JSON_stringify updatedUser) w in
      (set (set_user (Some updatedUser) ∘ set_loading false) w, Returned tt)
  | Rejected error =>
      (set (set_error
              (Some (or_default (err_message error) "Profile update failed"))
            ∘ set_loading false) w,
       Thrown error)
  end.

Definition updatePassword (data : PasswordUpdate)
    (o : Outcome unit) (w : World) : World * Completion unit :=
  let w := set (set_loading true ∘ set_error None) w in
  let w := send PUT "/api/user/password" w in
  match o with
  | Resolved _ => (set (set_loading false) w, Returned tt)
  | Rejected error =>
      (set (set_error
              (Some (or_default (err_message error) "Password update failed"))
            ∘ set_loading false) w,
       Thrown error)
  end.

Definition clearError (w : World) : World * Completion unit :=
  (set (set_error None) w, Returned tt).

(** *** Runs of the store *)

Inductive Action :=
| Login (credentials : LoginCredentials) (o : Outcome AuthResponse)
| Register (data : RegisterData) (o : Outcome AuthResponse)
| Logout
| UpdateProfile (data : ProfileUpdate) (o : Outcome User)
| UpdatePassword (data : PasswordUpdate) (o : Outcome unit)
| ClearError.

Definition perform (a : Action) (w : World) : World * Completion unit :=
  match a with
  | Login c o => login c o w
  | Register d o => register d o w
  | Logout => logout w
  | UpdateProfile d o => updateProfile d o w
  | UpdatePassword d o => updatePassword d o w
  | ClearError => clearError w
  end.

(** The caller may catch what an action throws and go on. *)
Fixpoint run (acts : list Action) (w : World) : World :=
  match acts with
  | [] => w
  | a :: rest => run rest (perform a w).1
  end.

(** The states the claims speak of. *)
Definition anonymous (s : AuthState) : Prop :=
  user s = None ∧ token s = None ∧ isAuthenticated s = false.

Definition both_or_neither (s : AuthState) : Prop :=
  is_Some (user s) ↔ is_Some (token s).

(** Whenever the store says it is authenticated, both halves of the
    identity are there. *)
Definition identity_complete (s : AuthState) : Prop :=
  isAuthenticated s = true → is_Some (user s) ∧ is_Some (token s).

End Store.

End Session.


(** ** The note store ([useNoteStore]) *)

Module NoteStore.

Record Author := mkAuthor {
  author_id : string;
  author_username : string;
  author_firstName : option string;
  author_lastName : option string;
  author_avatar : option string
}.

Record Note := mkNote {
  id : string;
  title : string;
  synopsis : string;
  content : string;
  authorId : string;
  author : option Author;
  isDeleted : bool;
  createdAt : string;
  updatedAt : string
}.

Global Instance Author_eq_dec : EqDecision Author.
Proof. solve_decision. Defined.
Global Instance Note_eq_dec : EqDecision Note.
Proof. solve_decision. Defined.

Record CreateNoteRequest := mkCreateNoteRequest {
  create_title : string;
  create_synopsis : string;
  create_content : string
}.

Record UpdateNoteRequest := mkUpdateNoteRequest {
  update_title : string;
  update_synopsis : string;
  update_content : string
}.

(** A response body is accepted enveloped ([{ note: n }], [{ notes: l }])
    or bare. *)
Inductive Envelope (A : Type) : Type :=
| Enveloped (a : A)
| Bare (a : A).
Arguments Enveloped {A} a.
Arguments Bare {A} a.

(** [response.note || response], [response.notes || response]: objects
    and arrays are truthy, and a bare note or array has no such field. *)
Definition unwrap {A : Type} (response : Envelope A) : A :=
  match response with
  | Enveloped a => a
  | Bare a => a
  end.

Record State := mkState {
  notes : list Note;
  deletedNotes : list Note;
  currentNote : option Note;
  loading : bool;
  error : option string
}.

Record World := mkWorld {
  store : State;
  sent : list Request
}.

Definition set_notes (l : list Note) (s : State) : State :=
  mkState l (deletedNotes s) (currentNote s) (loading s) (error s).
Definition set_deletedNotes (l : list Note) (s : State) : State :=
  mkState (notes s) l (currentNote s) (loading s) (error s).
Definition set_currentNote (n : option Note) (s : State) : State :=
  mkState (notes s) (deletedNotes s) n (loading s) (error s).
Definition set_loading (b : bool) (s : State) : State :=
  mkState (notes s) (deletedNotes s) (currentNote s) b (error s).
Definition set_error (e : option string) (s : State) : State :=
  mkState (notes s) (deletedNotes s) (currentNote s) (loading s) e.

(** [set(partial)] and [set(state => partial)]. *)
Definition set (f : State → State) (w : World) : World :=
  mkWorld (f (store w)) (sent w).

Definition send (m : Method) (endpoint : string) (w : World) : World :=
  mkWorld (store w) (mkRequest m endpoint :: sent w).

Definition initial : World :=
  mkWorld (mkState [] [] None false None) [].

(** The [catch] block every operation shares, up to its default text. *)
Definition fail {A : Type} (text : string) (error : Error) (w : World)
    : World * Completion A :=
  (set (set_error (Some (or_default (err_message error) text))
        ∘ set_loading false) w,
   Thrown error).

Definition fetchNotes (o : Outcome (Envelope (list Note))) (w : World)
    : World * Completion unit :=
  let w := set (set_loading true ∘ set_error None) w in
  let w := send GET "/api/notes" w in
  match o with
  | Resolved response =>
      (set (set_notes (unwrap response) ∘ set_loading false) w, Returned tt)
  | Rejected error => fail "& Failed to fetch notes" error w
  end.

Definition fetchDeletedNotes (o : Outcome (Envelope (list Note))) (w : World)
    : World * Completion unit :=
  let w := set (set_loading true ∘ set_error None) w in
  let w := send GET "/api/notes/trash" w in
  match o with
  | Resolved response =>
      (set (set_deletedNotes (unwrap response) ∘ set_loading false) w,
       Returned tt)
  | Rejected error => fail "Failed to fetch deleted notes" error w
  end.

Definition fetchNoteById (i : string) (o : Outcome (Envelope Note))
    (w : World) : World * Completion unit :=
  let w := set (set_loading true ∘ set_error None) w in
  let w := send GET ("/api/notes/" +:+ i) w in
  match o with
  | Resolved response =>
      (set (set_currentNote (Some (unwrap response)) ∘ set_loading false) w,
       Returned tt)
  | Rejected error => fail "Failed to fetch note" error w
  end.

Definition createNote (noteData : CreateNoteRequest)
    (o : Outcome (Envelope Note)) (w : World) : World * Completion Note :=
  let w := set (set_loading true ∘ set_error None) w in
  let w := send POST "/api/notes" w in
  match o with
  | Resolved response =>
      let newNote := unwrap response in
      (set (λ state, (set_notes (newNote :: notes state)
                      ∘ set_loading false) state) w,
       Returned newNote)
  | Rejected error => fail "Failed to create note" error w
  end.

Definition updateNote (i : string) (noteData : UpdateNoteRequest)
    (o : Outcome (Envelope Note)) (w : World) : World * Completion unit :=
  let w := set (set_loading true ∘ set_error None) w in
  let w := send PUT ("/api/notes/" +:+ i) w in
  match o with
  | Resolved response =>
      let updatedNote := unwrap response in
      (set (λ state,
              (set_notes ((λ note, if decide (id note = i)
                                   then updatedNote else note)
                          <$> notes state)
               ∘ set_currentNote (Some updatedNote)
               ∘ set_loading false) state) w,
       Returned tt)
  | Rejected error => fail "Failed to update note" error w
  end.

Definition deleteNote (i : string) (o : Outcome unit) (w : World)
    : World * Completion unit :=
  let w := set (set_loading true ∘ set_error None) w in
  let w := send DELETE ("/api/notes/" +:+ i) w in
  match o with
  | Resolved _ =>
      (set (λ state,
              (set_notes (filter (λ note, id note ≠ i) (notes state))
               ∘ set_loading false) state) w,
       Returned tt)
  | Rejected error => fail "Failed to delete note" error w
  end.

Definition restoreNote (i : string) (o : Outcome (Envelope Note))
    (w : World) : World * Completion unit :=
  let w := set (set_loading true ∘ set_error None) w in
  let w := send PATCH ("/api/notes/restore/" +:+ i) w in
  match o with
  | Resolved response =>
      let restoredNote := unwrap response in
      (set (λ state,
              (set_deletedNotes
                 (filter (λ note, id note ≠ i) (deletedNotes state))
               ∘ set_notes (restoredNote :: notes state)
               ∘ set_loading false) state) w,
       Returned tt)
  | Rejected error => fail "Failed to restore note" error w
  end.

Definition clearError (w : World) : World * Completion unit :=
  (set (set_error None) w, Returned tt).

(** *** Runs of the store *)

Inductive Action :=
| FetchNotes (o : Outcome (Envelope (list Note)))
| FetchDeletedNotes (o : Outcome (Envelope (list Note)))
| FetchNoteById (i : string) (o : Outcome (Envelope Note))
| CreateNote (noteData : CreateNoteRequest) (o : Outcome (Envelope Note))
| UpdateNote (i : string) (noteData : UpdateNoteRequest)
    (o : Outcome (Envelope Note))
| DeleteNote (i : string) (o : Outcome unit)
| RestoreNote (i : string) (o : Outcome (Envelope Note))
| ClearError.

Definition perform (a : Action) (w : World) : World :=
  match a with
  | FetchNotes o => (fetchNotes o w).1
  | FetchDeletedNotes o => (fetchDeletedNotes o w).1
  | FetchNoteById i o => (fetchNoteById i o w).1
  | CreateNote d o => (createNote d o w).1
  | UpdateNote i d o => (updateNote i d o w).1
  | DeleteNote i o => (deleteNote i o w).1
  | RestoreNote i o => (restoreNote i o w).1
  | ClearError => (clearError w).1
  end.

Fixpoint run (acts : list Action) (w : World) : World :=
  match acts with
  | [] => w
  | a :: rest => run rest (perform a w)
  end.

(** The invariant of the data model, in its three parts. *)
Definition active_live (s : State) : Prop :=
  ∀ n, n ∈ notes s → isDeleted n = false.

Definition trash_deleted (s : State) : Prop :=
  ∀ n, n ∈ deletedNotes s → isDeleted n = true.

Definition disjoint_by_id (s : State) : Prop :=
  ∀ a d, a ∈ notes s → d ∈ deletedNotes s → id a ≠ id d.

Definition collections_invariant (s : State) : Prop :=
  active_live s ∧ trash_deleted s ∧ disjoint_by_id s.

(** A response that respects its endpoint: the listing of active notes
    holds live notes, the trash listing deleted ones, and a note that was
    created, updated or restored is live. *)
Definition resolved_with {A : Type} (P : A → Prop)
    (o : Outcome (Envelope A)) : Prop :=
  match o with
  | Resolved response => P (unwrap response)
  | Rejected _ => True
  end.

Definition respects_endpoint (a : Action) : Prop :=
  match a with
  | FetchNotes o => resolved_with (Forall (λ n, isDeleted n = false)) o
  | FetchDeletedNotes o => resolved_with (Forall (λ n, isDeleted n = true)) o
  | CreateNote _ o | UpdateNote _ _ o | RestoreNote _ o =>
      resolved_with (λ n, isDeleted n = false) o
  | FetchNoteById _ _ | DeleteNote _ _ | ClearError => True
  end.

(** What the current-note slot would hold after an update if the slot
    followed the updated id only. *)
Definition current_if_matching (i : string) (updatedNote : Note)
    (current : option Note) : option Note :=
  match current with
  | Some c => if decide (id c = i) then Some updatedNote else Some c
  | None => None
  end.

End NoteStore.


(** ** Markdown: sanitized rendering and synopsis extraction *)

Module Markdown.

(** A JavaScript string is a sequence of UTF-16 code units; [length],
    [substring], [lastIndexOf] and the regular expressions of this file
    (none has the [u] flag) all count and match code units. *)
Abbreviation jsstring := (list N).

(** An ASCII literal as a JavaScript string. *)
Definition js (s : string) : jsstring :=
  Ascii.N_of_ascii <$> String.list_ascii_of_string s.

Definition BACKTICK : N := 96.
Definition TILDE : N := 126.
Definition BANG : N := 33.
Definition LBRACKET : N := 91.
Definition RBRACKET : N := 93.
Definition LPAREN : N := 40.
Definition RPAREN : N := 41.
Definition NEWLINE : N := 10.
Definition SPACE : N := 32.

(** The class [\s], which is also what [trim] strips: WhiteSpace and
    LineTerminator of ECMAScript. *)
Definition is_space (c : N) : bool :=
  ((9 <=? c) && (c <=? 13) || (c =? 32) || (c =? 160) || (c =? 5760)
   || (8192 <=? c) && (c <=? 8202) || (c =? 8232) || (c =? 8233)
   || (c =? 8239) || (c =? 8287) || (c =? 12288) || (c =? 65279))%N.

(** The class [[#*`_~>\|]]. *)
Definition is_symbol (c : N) : bool :=
  ((c =? 35) || (c =? 42) || (c =? 96) || (c =? 95) || (c =? 126)
   || (c =? 62) || (c =? 124))%N.

(** The class [[-+*]]. *)
Definition is_bullet (c : N) : bool :=
  ((c =? 45) || (c =? 43) || (c =? 42))%N.

(** *** Global replacement *)

(** A matcher tries one pattern at the start of the text; on success it
    gives the number of code units the match consumes and the text that
    replaces them. *)
Definition matcher : Type := jsstring → option (nat * jsstring).

(** [s.replace(/re/g, r)]: the text is scanned left to right, a match is
    replaced and the scan resumes behind it, an unmatched unit is copied.
    [skip] counts the units of the current match still to be passed. *)
Fixpoint replace_from (m : matcher) (skip : nat) (s : jsstring) : jsstring :=
  match s with
  | [] => []
  | c :: rest =>
      match skip with
      | S k => replace_from m k rest
      | O =>
          match m (c :: rest) with
          | Some (S k, r) => r ++ replace_from m k rest
          | Some (O, r) => r ++ c :: replace_from m 0 rest
          | None => c :: replace_from m 0 rest
          end
      end
  end.

Definition replace_all (m : matcher) (s : jsstring) : jsstring :=
  replace_from m 0 s.

(** Index of the first unit satisfying [p]. *)
Fixpoint index_where (p : N → bool) (s : jsstring) : option nat :=
  match s with
  | [] => None
  | c :: rest => if p c then Some 0 else S <$> index_where p rest
  end.

(** Length of the longest prefix whose units all satisfy [p]. *)
Fixpoint count_while (p : N → bool) (s : jsstring) : nat :=
  match s with
  | [] => 0
  | c :: rest => if p c then S (count_while p rest) else 0
  end.

Fixpoint drop_while (p : N → bool) (s : jsstring) : jsstring :=
  match s with
  | [] => []
  | c :: rest => if p c then drop_while p rest else s
  end.

Fixpoint starts_with (pat s : jsstring) : bool :=
  match pat, s with
  | [], _ => true
  | a :: pat', b :: s' => (a =? b)%N && starts_with pat' s'
  | _ :: _, [] => false
  end.

(** [s.indexOf(pat)] *)
Fixpoint index_of (pat s : jsstring) : option nat :=
  if starts_with pat s then Some 0
  else match s with
       | [] => None
       | _ :: rest => S <$> index_of pat rest
       end.

(** [/```[\s\S]*?```/] and [/~~~[\s\S]*?~~~/]: an opening fence, then
    lazily anything up to the nearest closing fence. *)
Definition match_fence (q : N) : matcher := λ s,
  if starts_with [q; q; q] s
  then match index_of [q; q; q] (drop 3 s) with
       | Some k => Some (3 + k + 3, [])
       | None => None
       end
  else None.

(** [/`[^`]*`/]: a backtick up to the next backtick. *)
Definition match_inline_code : matcher := λ s,
  match s with
  | c :: rest =>
      if (c =? BACKTICK)%N
      then match index_where (λ x, (x =? BACKTICK)%N) rest with
           | Some k => Some (1 + k + 1, [])
           | None => None
           end
      else None
  | [] => None
  end.

(** The link pattern of line 53 without its optional bang: an opening
    bracket, a label of units other than the closing bracket, the closing
    bracket, an opening parenthesis at once, a target of units other than
    the closing parenthesis, the closing parenthesis.  Each class excludes
    the delimiter that ends it, so backtracking finds no other match.
    The replacement, group 1, is the label. *)
Definition match_link_body : matcher := λ s,
  match s with
  | c :: rest =>
      if (c =? LBRACKET)%N
      then match index_where (λ x, (x =? RBRACKET)%N) rest with
           | Some k =>
               match drop (S k) rest with
               | p :: target =>
                   if (p =? LPAREN)%N
                   then match index_where (λ x, (x =? RPAREN)%N) target with
                        | Some j => Some (1 + k + 1 + 1 + j + 1, take k rest)
                        | None => None
                        end
                   else None
               | [] => None
               end
           | None => None
           end
      else None
  | [] => None
  end.

(** The whole link pattern: the optional bang is tried first, then
    given up. *)
Definition match_link : matcher := λ s,
  match s with
  | c :: rest =>
      if (c =? BANG)%N
      then match match_link_body rest with
           | Some (n, label) => Some (S n, label)
           | None => match_link_body s
           end
      else match_link_body s
  | [] => None
  end.

(** [/[#*`_~>\|]/] *)
Definition match_symbol : matcher := λ s,
  match s with
  | c :: _ => if is_symbol c then Some (1, []) else None
  | [] => None
  end.

(** [/\n\s*[-+*]\s/]: a bullet is no white space, so [\s*] can only stop
    at the end of the run of white space. *)
Definition match_list_item : matcher := λ s,
  match s with
  | c :: rest =>
      if (c =? NEWLINE)%N
      then let ws := count_while is_space rest in
           match drop ws rest with
           | b :: sp :: _ =>
               if is_bullet b && is_space sp
               then Some (1 + ws + 2, [SPACE])
               else None
           | _ => None
           end
      else None
  | [] => None
  end.

(** [/\n+/] and [/\s+/]: a longest non-empty run. *)
Definition match_run (p : N → bool) : matcher := λ s,
  match count_while p s with
  | O => None
  | n => Some (n, [SPACE])
  end.

(** [s.trim()] *)
Definition trim (s : jsstring) : jsstring :=
  reverse (drop_while is_space (reverse (drop_while is_space s))).

(** [s.substring(start, end)]: both indices are clamped to the string and
    swapped when out of order. *)
Definition substring (s : jsstring) (start end_ : Z) : jsstring :=
  let a := Z.to_nat start in
  let b := Z.to_nat end_ in
  drop (Nat.min a b) (take (Nat.max a b) s).

Fixpoint last_index_upto (c : N) (s : jsstring) (i limit found : Z) : Z :=
  match s with
  | [] => found
  | x :: rest =>
      last_index_upto c rest (i + 1) limit
        (if (x =? c)%N && (i <=? limit)%Z then i else found)
  end.

(** [s.lastIndexOf(c, fromIndex)] for a one-unit [c]: the greatest index
    at most [fromIndex] (taken as 0 when negative) that holds [c], else
    -1. *)
Definition lastIndexOf (s : jsstring) (c : N) (fromIndex : Z) : Z :=
  last_index_upto c s 0 (Z.max fromIndex 0) (-1).

Definition ellipsis : jsstring := js "...".

(** The chain of [replace] calls and the final [trim] (lines 49-58). *)
Definition plain_text (markdown : jsstring) : jsstring :=
  let s := replace_all (match_fence BACKTICK) markdown in
  let s := replace_all (match_fence TILDE) s in
  let s := replace_all match_inline_code s in
  let s := replace_all match_link s in
  let s := replace_all match_symbol s in
  let s := replace_all match_list_item s in
  let s := replace_all (match_run (λ c, (c =? NEWLINE)%N)) s in
  let s := replace_all (match_run is_space) s in
  trim s.

(** [lastSpace > maxLength * 0.8 ? lastSpace : maxLength].  For an
    integral [maxLength] the floating-point product rounds to the exact
    four fifths whenever that is an integer, so the test is the integer
    comparison [4 * maxLength < 5 * lastSpace]. *)
Definition break_point (plainText : jsstring) (maxLength : Z) : Z :=
  let lastSpace := lastIndexOf plainText SPACE maxLength in
  if (4 * maxLength <? 5 * lastSpace)%Z then lastSpace else maxLength.

Definition default_maxLength : Z := 150.

Definition extractSynopsis (markdown : jsstring) (maxLength : Z) : jsstring :=
  match markdown with
  | [] => []
  | _ =>
      let plainText := plain_text markdown in
      if (maxLength <? Z.of_nat (length plainText))%Z
      then trim (substring plainText 0 (break_point plainText maxLength))
             ++ ellipsis
      else plainText
  end.

(** *** Rendering *)

Record SanitizeConfig := mkSanitizeConfig {
  ADD_TAGS : list string;
  ADD_ATTR : list string;
  FORBID_TAGS : list string;
  FORBID_ATTR : list string
}.

Definition sanitize_config : SanitizeConfig :=
  mkSanitizeConfig
    ["iframe"; "table"; "thead"; "tbody"; "tr"; "th"; "td"; "pre"; "code"]
    ["allow"; "allowfullscreen"; "frameborder"; "scrolling"; "class"; "style"]
    ["script"; "style"; "form"; "input"; "button"]
    ["onerror"; "onload"; "onclick"; "onmouseover"].

Section Render.
(** The two libraries [markdownToHtml] delegates to. *)
Variable marked : jsstring → jsstring.
Variable DOMPurify_sanitize : jsstring → SanitizeConfig → jsstring.

Definition markdownToHtml (markdown : jsstring) : jsstring :=
  match markdown with
  | [] => []
  | _ =>
      let rawHtml := marked markdown in
      let sanitizedHtml := DOMPurify_sanitize rawHtml sanitize_config in
      sanitizedHtml
  end.

End Render.

(** A matcher whose replacement is never longer than what it consumes,
    nor than the text it was tried on. *)
Definition shrinking (m : matcher) : Prop :=
  ∀ s n r, m s = Some (n, r) → length r ≤ n ∧ length r ≤ length s.

(** *** The break point, as the specification words it *)

(** [j] is a white-space boundary of [p] at most [maxLength] and beyond
    four fifths of it. *)
Definition is_break (p : jsstring) (maxLength : Z) (j : Z) : Prop :=
  (0 ≤ j)%Z ∧ p !! Z.to_nat j = Some SPACE
  ∧ (j ≤ maxLength)%Z ∧ (4 * maxLength < 5 * j)%Z.

(** The last such boundary when there is one, else [maxLength]. *)
Definition chosen_break (p : jsstring) (maxLength : Z) (b : Z) : Prop :=
  (is_break p maxLength b ∧ ∀ j, is_break p maxLength j → (j ≤ b)%Z)
  ∨ ((∀ j, ¬ is_break p maxLength j) ∧ b = maxLength).

Definition ends_with (suffix s : jsstring) : Prop :=
  ∃ body : jsstring, s = (body ++ suffix)%list.

End Markdown.


(** * The rest of the stores, the request side of the gateway, the route
      guard *)

(** The error an awaited call was rejected with, and the error an
    operation threw. *)
Definition rejected_with {A : Type} (o : Outcome A) : option Error :=
  match o with
  | Resolved _ => None
  | Rejected e => Some e
  end.

Definition thrown {A : Type} (c : Completion A) : option Error :=
  match c with
  | Returned _ => None
  | Thrown e => Some e
  end.

Module NoteRuns.
Import NoteStore.

(** The rejection an action of the note store meets, if any. *)
Definition rejection (a : Action) : option Error :=
  match a with
  | FetchNotes o | FetchDeletedNotes o => rejected_with o
  | FetchNoteById _ o | CreateNote _ o | UpdateNote _ _ o
  | RestoreNote _ o => rejected_with o
  | DeleteNote _ o => rejected_with o
  | ClearError => None
  end.

(** What the action throws to its caller. *)
Definition completion (a : Action) (w : World) : option Error :=
  match a with
  | FetchNotes o => thrown (fetchNotes o w).2
  | FetchDeletedNotes o => thrown (fetchDeletedNotes o w).2
  | FetchNoteById i o => thrown (fetchNoteById i o w).2
  | CreateNote d o => thrown (createNote d o w).2
  | UpdateNote i d o => thrown (updateNote i d o w).2
  | DeleteNote i o => thrown (deleteNote i o w).2
  | RestoreNote i o => thrown (restoreNote i o w).2
  | ClearError => thrown (clearError w).2
  end.

(** The two operations that replace a collection wholesale. *)
Definition replaces_listing (a : Action) : bool :=
  match a with
  | FetchNotes _ | FetchDeletedNotes _ => true
  | _ => false
  end.

(** A response that names the note it was asked about: an updated or
    restored note carries the id of the request, and a created note an id
    that is not in the trash. *)
Definition answers_request (a : Action) (w : World) : Prop :=
  match a with
  | UpdateNote i _ (Resolved response)
  | RestoreNote i (Resolved response) => id (unwrap response) = i
  | CreateNote _ (Resolved response) =>
      ∀ d, d ∈ deletedNotes (store w) → id (unwrap response) ≠ id d
  | _ => True
  end.

(** *** Operations in flight

    An operation runs in two parts, before and after its [await]; between
    the two, parts of other operations may run.  [start] is the part
    before the [await], [settle] the part after it. *)

(** The request an operation hands to the gateway; [clearError] makes
    none. *)
Definition request_of (a : Action) : option Request :=
  match a with
  | FetchNotes _ => Some (mkRequest GET "/api/notes")
  | FetchDeletedNotes _ => Some (mkRequest GET "/api/notes/trash")
  | FetchNoteById i _ => Some (mkRequest GET ("/api/notes/" +:+ i))
  | CreateNote _ _ => Some (mkRequest POST "/api/notes")
  | UpdateNote i _ _ => Some (mkRequest PUT ("/api/notes/" +:+ i))
  | DeleteNote i _ => Some (mkRequest DELETE ("/api/notes/" +:+ i))
  | RestoreNote i _ => Some (mkRequest PATCH ("/api/notes/restore/" +:+ i))
  | ClearError => None
  end.

(** The text a [catch] block falls back to. *)
Definition failure_text (a : Action) : string :=
  match a with
  | FetchNotes _ => "& Failed to fetch notes"
  | FetchDeletedNotes _ => "Failed to fetch deleted notes"
  | FetchNoteById _ _ => "Failed to fetch note"
  | CreateNote _ _ => "Failed to create note"
  | UpdateNote _ _ _ => "Failed to update note"
  | DeleteNote _ _ => "Failed to delete note"
  | RestoreNote _ _ => "Failed to restore note"
  | ClearError => ""
  end.

(** [set({ loading: true, error: null })] and the call. *)
Definition start (a : Action) (w : World) : World :=
  match request_of a with
  | Some r =>
      send (req_method r) (req_endpoint r)
        (set (set_loading true ∘ set_error None) w)
  | None => w
  end.

(** What the operation does once the call has settled: the [set] of the
    [try] block, or the [set] of the [catch] block. *)
Definition settle (a : Action) (w : World) : World :=
  match a with
  | FetchNotes (Resolved response) =>
      set (set_notes (unwrap response) ∘ set_loading false) w
  | FetchDeletedNotes (Resolved response) =>
      set (set_deletedNotes (unwrap response) ∘ set_loading false) w
  | FetchNoteById _ (Resolved response) =>
      set (set_currentNote (Some (unwrap response)) ∘ set_loading false) w
  | CreateNote _ (Resolved response) =>
      set (λ state, (set_notes (unwrap response :: notes state)
                     ∘ set_loading false) state) w
  | UpdateNote i _ (Resolved response) =>
      set (λ state,
             (set_notes ((λ note, if decide (id note = i)
                                  then unwrap response else note)
                         <$> notes state)
              ∘ set_currentNote (Some (unwrap response))
              ∘ set_loading false) state) w
  | DeleteNote i (Resolved _) =>
      set (λ state,
             (set_notes (filter (λ note, id note ≠ i) (notes state))
              ∘ set_loading false) state) w
  | RestoreNote i (Resolved response) =>
      set (λ state,
             (set_deletedNotes
                (filter (λ note, id note ≠ i) (deletedNotes state))
              ∘ set_notes (unwrap response :: notes state)
              ∘ set_loading false) state) w
  | ClearError => set (set_error None) w
  | _ =>
      match rejection a with
      | Some error =>
          set (set_error
                 (Some (or_default (err_message error) (failure_text a)))
               ∘ set_loading false) w
      | None => w
      end
  end.

(** One step of a schedule: some operation starts, or some operation
    that was started settles. *)
Inductive Step :=
| Begin (a : Action)
| Settle (a : Action).

Definition step (w : World) (s : Step) : World :=
  match s with
  | Begin a => start a w
  | Settle a => settle a w
  end.

(** A schedule, run from a state; the parts of different operations may
    alternate in any order. *)
Definition interleave (steps : list Step) (w : World) : World :=
  foldl step w steps.

(** The schedule without overlap: every operation settles before the
    next one starts. *)
Definition sequential (acts : list Action) : list Step :=
  acts ≫= λ a, [Begin a; Settle a].

(** Every message the store shows was recorded by a rejected operation
    of the schedule. *)
Definition error_explained (steps : list Step) (w : World) : Prop :=
  ∀ m, error (store w) = Some m →
    m ≠ ""
    ∧ ∃ b e, Settle b ∈ steps ∧ rejection b = Some e
             ∧ m = or_default (err_message e) (failure_text b).

End NoteRuns.

Module SessionRuns.
Import Session.

Definition rejection (a : Action) : option Error :=
  match a with
  | Login _ o | Register _ o => rejected_with o
  | UpdateProfile _ o => rejected_with o
  | UpdatePassword _ o => rejected_with o
  | Logout | ClearError => None
  end.

(** The credential in memory is the credential in [localStorage]. *)
Definition token_persisted (w : World) : Prop :=
  token (auth w) = localStorage w !! "token".

(** *** Operations in flight *)

(** The request an operation hands to the gateway; [logout] and
    [clearError] make none and have no [await]. *)
Definition request_of (a : Action) : option Request :=
  match a with
  | Login _ _ => Some (mkRequest POST "/api/auth/login")
  | Register _ _ => Some (mkRequest POST "/api/auth/register")
  | UpdateProfile _ _ => Some (mkRequest PUT "/api/user/profile")
  | UpdatePassword _ _ => Some (mkRequest PUT "/api/user/password")
  | Logout | ClearError => None
  end.

(** [set({ loading: true, error: null })] and the call. *)
Definition start (a : Action) (w : World) : World :=
  match request_of a with
  | Some r =>
      send (req_method r) (req_endpoint r)
        (set (set_loading true ∘ set_error None) w)
  | None => w
  end.

Section Phases.
Variable JSON_stringify : User → string.

(** The authenticated state both [login] and [register] set. *)
Definition signed_in (response : AuthResponse) (w : World) : World :=
  set (set_user (Some (resp_user response))
       ∘ set_token (Some (resp_token response))
       ∘ set_isAuthenticated true ∘ set_loading false)
    (setAuthData JSON_stringify (resp_user response) (resp_token response) w).

Definition failed (text : string) (error : Error) (w : World) : World :=
  set (set_error (Some (or_default (err_message error) text))
       ∘ set_loading false) w.

(** What the operation does once the call has settled; [logout] and
    [clearError], which await nothing, do all they do here. *)
Definition settle (a : Action) (w : World) : World :=
  match a with
  | Login _ (Resolved response) => signed_in response w
  | Login _ (Rejected error) => failed "Login failed" error w
  | Register _ (Resolved response) => signed_in response w
  | Register _ (Rejected error) => failed "Registration failed" error w
  | Logout => (logout w).1
  | UpdateProfile _ (Resolved updatedUser) =>
      set (set_user (Some updatedUser) ∘ set_loading false)
        (setItem "user" (JSON_stringify updatedUser) w)
  | UpdateProfile _ (Rejected error) =>
      failed "Profile update failed" error w
  | UpdatePassword _ (Resolved _) => set (set_loading false) w
  | UpdatePassword _ (Rejected error) =>
      failed "Password update failed" error w
  | ClearError => (clearError w).1
  end.

Inductive Step :=
| Begin (a : Action)
| Settle (a : Action).

Definition step (w : World) (s : Step) : World :=
  match s with
  | Begin a => start a w
  | Settle a => settle a w
  end.

Definition interleave (steps : list Step) (w : World) : World :=
  foldl step w steps.

Definition sequential (acts : list Action) : list Step :=
  acts ≫= λ a, [Begin a; Settle a].

End Phases.

End SessionRuns.

Module Requests.

(** The request interceptor (api.ts 76-86): the headers of the outgoing
    request, given what [localStorage] holds. *)
Definition request_interceptor (ls : gmap string string)
    (headers : gmap string string) : gmap string string :=
  let token := ls !! "token" in
  if Js.truthy_str token
  then <[ "Authorization" := "Bearer " +:+ default "" token ]> headers
  else headers.

End Requests.

Module Routing.

(** What [ProtectedRoute] renders. *)
Inductive View :=
| Spinner
| NavigateToLogin (from : string)
| Children.

(** [ProtectedRoute] (ProtectedRoute.tsx 10-28), as a function of the
    session state and the current location. *)
Definition ProtectedRoute (s : Session.AuthState) (location : string) : View :=
  if Session.loading s then Spinner
  else if negb (Session.isAuthenticated s) then NavigateToLogin location
  else Children.

End Routing.


(** * The shape of the plain text *)

Module Shape.
Import Markdown.

(** Every white-space unit is a single space, and no two spaces are
    adjacent. *)
Definition single_spaced (l : jsstring) : Prop :=
  (∀ c, c ∈ l → is_space c = true → c = SPACE)
  ∧ (∀ i, l !! i = Some SPACE → l !! S i ≠ Some SPACE).

(** Neither end is white space. *)
Definition trimmed (l : jsstring) : Prop :=
  (∀ c, head l = Some c → is_space c = false)
  ∧ (∀ c, last l = Some c → is_space c = false).

(** A unit that is neither a markup symbol nor white space other than the
    space. *)
Definition plain_unit (c : N) : Prop :=
  is_symbol c = false ∧ (is_space c = true → c = SPACE).

Definition head_is_space (l : jsstring) : bool :=
  match l with
  | c :: _ => is_space c
  | [] => false
  end.

(** The check behind [single_spaced], unit by unit. *)
Fixpoint collapsed (l : jsstring) : bool :=
  match l with
  | [] => true
  | c :: rest =>
      (if is_space c then (c =? SPACE)%N && negb (head_is_space rest)
       else true)
      && collapsed rest
  end.

End Shape.


(** * Form validation *)

Module Regex.
Import Markdown.

(** The regular expressions of [validation.ts] and of the forms use only
    classes, concatenation, alternation and repetition; for these
    [re.test(s)] with [^] and [$] says whether the whole of [s] is in the
    language of the expression, which is what [accepts] decides, by
    derivatives. *)
Inductive regex : Type :=
| Never
| Empty
| Class (p : N → bool)
| Seq (r1 r2 : regex)
| Alt (r1 r2 : regex)
| Star (r : regex).

Fixpoint nullable (r : regex) : bool :=
  match r with
  | Never => false
  | Empty => true
  | Class _ => false
  | Seq r1 r2 => nullable r1 && nullable r2
  | Alt r1 r2 => nullable r1 || nullable r2
  | Star _ => true
  end.

Fixpoint derive (c : N) (r : regex) : regex :=
  match r with
  | Never => Never
  | Empty => Never
  | Class p => if p c then Empty else Never
  | Seq r1 r2 =>
      if nullable r1
      then Alt (Seq (derive c r1) r2) (derive c r2)
      else Seq (derive c r1) r2
  | Alt r1 r2 => Alt (derive c r1) (derive c r2)
  | Star r1 => Seq (derive c r1) (Star r1)
  end.

Fixpoint accepts (r : regex) (s : jsstring) : bool :=
  match s with
  | [] => nullable r
  | c :: rest => accepts (derive c r) rest
  end.

(** The language of an expression. *)
Inductive matches : regex → jsstring → Prop :=
| MEmpty : matches Empty []
| MClass p c : p c = true → matches (Class p) [c]
| MSeq r1 r2 s1 s2 :
    matches r1 s1 → matches r2 s2 → matches (Seq r1 r2) (s1 ++ s2)
| MAltL r1 r2 s : matches r1 s → matches (Alt r1 r2) s
| MAltR r1 r2 s : matches r2 s → matches (Alt r1 r2) s
| MStarNil r : matches (Star r) []
| MStarApp r s1 s2 :
    matches r s1 → matches (Star r) s2 → matches (Star r) (s1 ++ s2).

(** [r+], [r{n}], [r{0,n}] and [r{lo,hi}]. *)
Definition plus (r : regex) : regex := Seq r (Star r).

Fixpoint times (n : nat) (r : regex) : regex :=
  match n with
  | O => Empty
  | S n' => Seq r (times n' r)
  end.

Fixpoint upto (n : nat) (r : regex) : regex :=
  match n with
  | O => Empty
  | S n' => Alt Empty (Seq r (upto n' r))
  end.

Definition between (lo hi : nat) (r : regex) : regex :=
  Seq (times lo r) (upto (hi - lo) r).

(** Every unit of the text is in the class. *)
Definition all_in (p : N → bool) (s : jsstring) : Prop :=
  Forall (λ c, p c = true) s.

End Regex.

Module Validation.
Import Markdown Regex.

Definition AT : N := 64.
Definition DOT : N := 46.
Definition UNDERSCORE : N := 95.
Definition APOSTROPHE : N := 39.
Definition HYPHEN : N := 45.

Definition is_upper (c : N) : bool := ((65 <=? c) && (c <=? 90))%N.
Definition is_lower (c : N) : bool := ((97 <=? c) && (c <=? 122))%N.
Definition is_digit (c : N) : bool := ((48 <=? c) && (c <=? 57))%N.
Definition is_letter (c : N) : bool := is_upper c || is_lower c.

(** The class of line 6: neither white space nor the at sign. *)
Definition is_email_unit (c : N) : bool :=
  negb (is_space c || (c =? AT)%N).

(** The class of line 24, its twenty signs in the order of the source. *)
Definition is_special (c : N) : bool :=
  existsb (N.eqb c)
    [33; 64; 35; 36; 37; 94; 38; 42; 40; 41; 44; 46; 63; 34; 58; 123; 125;
     124; 60; 62]%N.

(** The class [A-Za-z0-9_]. *)
Definition is_word (c : N) : bool :=
  is_letter c || is_digit c || (c =? UNDERSCORE)%N.

(** The class of line 46: letters, white space, apostrophe, hyphen. *)
Definition is_name_unit (c : N) : bool :=
  is_letter c || is_space c || (c =? APOSTROPHE)%N || (c =? HYPHEN)%N.

Definition emailRegex : regex :=
  Seq (plus (Class is_email_unit))
    (Seq (Class (λ c, (c =? AT)%N))
       (Seq (plus (Class is_email_unit))
          (Seq (Class (λ c, (c =? DOT)%N))
             (plus (Class is_email_unit))))).

Definition isValidEmail (email : jsstring) : bool :=
  accepts emailRegex email.

(** [/[A-Z]/.test(s)] and its like are not anchored: some unit is in the
    class. *)
Definition isValidPassword (password : jsstring) : bool :=
  if length password <? 8 then false
  else
    let hasUpperCase := existsb is_upper password in
    let hasLowerCase := existsb is_lower password in
    let hasNumbers := existsb is_digit password in
    let hasSpecialChar := existsb is_special password in
    hasUpperCase && hasLowerCase && hasNumbers && hasSpecialChar.

Definition usernameRegex : regex :=
  Seq (Class is_letter) (between 2 19 (Class is_word)).

Definition isValidUsername (username : jsstring) : bool :=
  accepts usernameRegex username.

Definition nameRegex : regex := between 2 50 (Class is_name_unit).

Definition isValidName (name : jsstring) : bool :=
  accepts nameRegex name.

Definition isValidNoteTitle (title : jsstring) : bool :=
  let trimmedTitle := trim title in
  (3 <=? length trimmedTitle) && (length trimmedTitle <=? 100).

Definition isValidNoteContent (content : jsstring) : bool :=
  let trimmedContent := trim content in
  10 <=? length trimmedContent.

End Validation.

Module Forms.
Import Markdown Regex Validation.

(** [!s]: the empty string is the only falsy string. *)
Definition blank (s : jsstring) : bool :=
  match s with
  | [] => true
  | _ => false
  end.

(** [validateForm] of the login page (LoginPage.tsx 49-63): the message
    it sets when it returns false, [None] when it returns true. *)
Definition login_validateForm (emailOrUsername password : jsstring)
    : option string :=
  if blank (trim emailOrUsername)
  then Some "Email or username is required"
  else if blank (trim password)
  then Some "Password is required"
  else if length password <? 6
  then Some "Password must be at least 6 characters long"
  else None.

(** What [handleSubmit] of the login page passes to [login]. *)
Definition login_payload (emailOrUsername password : jsstring)
    : jsstring * jsstring :=
  (trim emailOrUsername, trim password).

Record RegisterForm := mkRegisterForm {
  firstName : jsstring;
  lastName : jsstring;
  username : jsstring;
  email : jsstring;
  password : jsstring
}.

Record RegisterErrors := mkRegisterErrors {
  err_firstName : string;
  err_lastName : string;
  err_username : string;
  err_email : string;
  err_password : string
}.

(** The expression of the two name tests of the register page: one or
    more letters or white-space units. *)
Definition is_letter_or_space (c : N) : bool := is_letter c || is_space c.

Definition lettersRegex : regex := plus (Class is_letter_or_space).

Definition no_error (e : string) : bool := String.eqb e "".

(** [validateForm] of the register page: the errors it sets and the
    boolean it returns. *)
Definition register_validateForm (formData : RegisterForm)
    : RegisterErrors * bool :=
  let e_first :=
    if blank (trim (firstName formData))
    then "First name is required"
    else if length (trim (firstName formData)) <? 2
    then "First name must be at least 2 characters long"
    else if negb (accepts lettersRegex (trim (firstName formData)))
    then "First name can only contain letters and spaces"
    else "" in
  let e_last :=
    if blank (trim (lastName formData))
    then "Last name is required"
    else if length (trim (lastName formData)) <? 2
    then "Last name must be at least 2 characters long"
    else if negb (accepts lettersRegex (trim (lastName formData)))
    then "Last name can only contain letters and spaces"
    else "" in
  let e_user :=
    if negb (isValidUsername (username formData))
    then "Username must be 3-20 characters and can only contain letters, numbers, and underscores"
    else "" in
  let e_mail :=
    if negb (isValidEmail (email formData))
    then "Please enter a valid email address"
    else "" in
  let e_pass :=
    if negb (isValidPassword (password formData))
    then "Password must be at least 8 characters long and contain uppercase, lowercase, number, and special character"
    else "" in
  (mkRegisterErrors e_first e_last e_user e_mail e_pass,
   no_error e_first && no_error e_last && no_error e_user
   && no_error e_mail && no_error e_pass).

(** The registration data [handleSubmit] passes to [register]. *)
Definition registrationData (formData : RegisterForm) : RegisterForm :=
  mkRegisterForm
    (trim (firstName formData))
    (trim (lastName formData))
    (trim (username formData))
    (trim (email formData))
    (trim (password formData)).

End Forms.


(** * The notes page: notes by time slot *)

Module NotesPage.
Import NoteStore.

Definition timeSlots : list string :=
  ["9:00"; "10:00"; "11:00"; "13:00"; "14:00"].

Section Organize.
(** [note.timeSlot]: the page reads this field, which the [Note]
    interface does not declare; [None] is [undefined]. *)
Variable timeSlot : Note → option string.

(** [organized[slot].push(note)] *)
Definition push (slot : string) (note : Note)
    (organized : gmap string (list Note)) : gmap string (list Note) :=
  <[ slot := default [] (organized !! slot) ++ [note] ]> organized.

(** [timeSlots.forEach(slot => { organized[slot] = [] })] *)
Definition empty_slots : gmap string (list Note) :=
  foldl (λ organized slot, <[ slot := [] ]> organized) ∅ timeSlots.

(** The [else] branch: the first slot that is still empty, if any. *)
Definition place_in_first_empty (note : Note)
    (organized : gmap string (list Note)) : gmap string (list Note) :=
  let firstEmptySlot :=
    List.find (λ slot, Nat.eqb (length (default [] (organized !! slot))) 0)
      timeSlots in
  match firstEmptySlot with
  | Some slot => push slot note organized
  | None => organized
  end.

(** The body of [notes.forEach] (NotesPage.tsx 234-245). *)
Definition place (organized : gmap string (list Note)) (note : Note)
    : gmap string (list Note) :=
  if Js.truthy_str (timeSlot note)
     && bool_decide (default "" (timeSlot note) ∈ timeSlots)
  then push (default "" (timeSlot note)) note organized
  else place_in_first_empty note organized.

Definition organizeNotesByTime (notes : list Note)
    : gmap string (list Note) :=
  foldl place empty_slots notes.

(** The slot a note is assigned to: its [timeSlot] when that is one of
    the slots of the page. *)
Definition assigned_to (slot : string) (note : Note) : Prop :=
  timeSlot note = Some slot ∧ slot ∈ timeSlots.

Definition unassigned (note : Note) : Prop :=
  ∀ slot, ¬ assigned_to slot note.

Global Instance assigned_to_dec slot note : Decision (assigned_to slot note).
Proof. unfold assigned_to. apply _. Defined.

(** Every slot of the page holds the notes assigned to it, in the order
    of the list, behind at most one unassigned note of the list. *)
Definition slots_filled (notes : list Note)
    (organized : gmap string (list Note)) : Prop :=
  ∀ slot, slot ∈ timeSlots →
    ∃ extra,
      organized !! slot = Some (extra ++ filter (assigned_to slot) notes)
      ∧ length extra ≤ 1
      ∧ Forall (λ n, unassigned n ∧ n ∈ notes) extra.

End Organize.

End NotesPage.


(** * Sample data *)

(** A failed request whose body is the JSON number 42. *)
Definition numeric_body_error : Gateway.AxiosError :=
  Gateway.mkAxiosError
    (Some (Gateway.mkResponse (Js.Num 42) (Some "Internal Server Error")))
    (Some "Request failed with status code 500").

(** A storage left with a token and no user. *)
Definition orphan_token_storage : gmap string string :=
  {[ "token" := "abc" ]}.

Definition alice : Session.User :=
  Session.mkUser "u1" "alice@example.org" "alice" None None None
    "2025-01-01T00:00:00Z" "2025-01-01T00:00:00Z".

(** Stand-ins for [JSON.stringify] and [JSON.parse] on the one stored
    user of the samples. *)
Definition sample_stringify (u : Session.User) : string := Session.id u.

Definition sample_parse (s : string) : Session.ParseResult :=
  if String.eqb s "u1" then Session.Parsed (Some alice)
  else Session.SyntaxError.

Definition sample_storage : gmap string string :=
  <[ "user" := "u1" ]> {[ "token" := "abc" ]}.

Definition sample_hydrated : Session.AuthState :=
  Session.mkAuthState (Some alice) (Some "abc") false None true.

Definition sample_credentials : Session.LoginCredentials :=
  Session.mkLoginCredentials (Some "alice@example.org") None None "secret".

Definition sample_run : list Session.Action :=
  [ Session.Logout;
    Session.Login sample_credentials (Rejected (mkError "Invalid credentials"));
    Session.ClearError;
    Session.Login sample_credentials
      (Resolved (Session.mkAuthResponse alice "def")) ].


Definition sample_note (i t : string) (deleted : bool) : NoteStore.Note :=
  NoteStore.mkNote i t "synopsis" "content" "u1" None deleted
    "2025-01-01T00:00:00Z" "2025-01-02T00:00:00Z".

Definition sample_update : NoteStore.UpdateNoteRequest :=
  NoteStore.mkUpdateNoteRequest "A2" "synopsis" "content".

(** Two notes are listed and the second is open in the detail view. *)
Definition two_notes_second_open : NoteStore.World :=
  NoteStore.mkWorld
    (NoteStore.mkState
       [sample_note "a" "A" false; sample_note "b" "B" false] []
       (Some (sample_note "b" "B" false)) false None)
    [].

(** The active listing is fetched; the note is then deleted elsewhere and
    the trash listing fetched.  Both responses are right for their
    endpoint at the time they are made. *)
Definition stale_listing_run : list NoteStore.Action :=
  [ NoteStore.FetchNotes
      (Resolved (NoteStore.Enveloped [sample_note "a" "A" false]));
    NoteStore.FetchDeletedNotes
      (Resolved (NoteStore.Enveloped [sample_note "a" "A" true])) ].

Definition sample_note_run : list NoteStore.Action :=
  [ NoteStore.FetchNotes
      (Resolved (NoteStore.Bare [sample_note "a" "A" false]));
    NoteStore.FetchDeletedNotes
      (Resolved (NoteStore.Enveloped [sample_note "c" "C" true]));
    NoteStore.RestoreNote "c"
      (Resolved (NoteStore.Enveloped (sample_note "c" "C" false)));
    NoteStore.UpdateNote "a" sample_update
      (Resolved (NoteStore.Enveloped (sample_note "a" "A2" false)));
    NoteStore.DeleteNote "c" (Resolved tt);
    NoteStore.CreateNote (NoteStore.mkCreateNoteRequest "D" "s" "c")
      (Rejected (mkError "Network Error")) ].


(** One note in the trash, another listed. *)
Definition one_listed_one_trashed : NoteStore.World :=
  NoteStore.mkWorld
    (NoteStore.mkState
       [sample_note "a" "A" false] [sample_note "c" "C" true]
       None false None)
    [].

Definition sample_create : NoteStore.CreateNoteRequest :=
  NoteStore.mkCreateNoteRequest "D" "synopsis" "content".

Definition anonymous_world : Session.World :=
  Session.boot (Session.mkAuthState None None false None false) ∅.


(** The body [{ "message": "Invalid credentials" }] of a 401 response. *)
Definition invalid_credentials_error : Gateway.AxiosError :=
  Gateway.mkAxiosError
    (Some (Gateway.mkResponse
             (Js.Obj [("message", Js.Str "Invalid credentials")])
             (Some "Unauthorized")))
    (Some "Request failed with status code 401").


Definition sample_registration : Forms.RegisterForm :=
  Forms.mkRegisterForm (Markdown.js " Al ") (Markdown.js "Smith")
    (Markdown.js "bob_1") (Markdown.js "bob@example.org")
    (Markdown.js " Abcdef1! ").


(** Notes whose ids are their time slots; any other id has none. *)
Definition slot_by_id (note : NoteStore.Note) : option string :=
  if bool_decide (NoteStore.id note ∈ NotesPage.timeSlots)
  then Some (NoteStore.id note) else None.

Definition sample_day : list NoteStore.Note :=
  [ sample_note "x" "X" false; sample_note "y" "Y" false;
    sample_note "10:00" "Ten" false; sample_note "10:00" "Ten again" false ].


(** A fetch of the listing is in flight while a delete is rejected; the
    fetch then succeeds. *)
Definition overlapped_schedule : list NoteRuns.Step :=
  [ NoteRuns.Begin
      (NoteStore.FetchNotes
         (Resolved (NoteStore.Enveloped [sample_note "a" "A" false])));
    NoteRuns.Begin
      (NoteStore.DeleteNote "a" (Rejected (mkError "Network Error")));
    NoteRuns.Settle
      (NoteStore.DeleteNote "a" (Rejected (mkError "Network Error")));
    NoteRuns.Settle
      (NoteStore.FetchNotes
         (Resolved (NoteStore.Enveloped [sample_note "a" "A" false]))) ].

Definition sample_password_update : Session.Action :=
  Session.UpdatePassword (Session.mkPasswordUpdate "old" "New1!new")
    (Resolved tt).


(** * Properties *)

(** ** The gateway *)

Section GatewayFacts.
Import Gateway.
Variable JSON_stringify : Js.value → string.
Variable ToString : Js.value → string.

Lemma truthy_str_default (o : option string) :
  Js.truthy_str o = true → default "" o ≠ "".
Proof.
  destruct o as [s|]; simpl; [|done].
  intros H ->. by simpl in H.
Qed.

End GatewayFacts.

(** Without a usable body the message is the transport description, the
    status text or the fallback, in that order, on both sides. *)
Ltac case_transport error :=
  by destruct (Js.truthy_str (Gateway.message error)),
       (Js.truthy_str (Gateway.response_statusText error)).

(** C4, as stated, fails: with a numeric body no body rule applies and the
    transport-level description is present, yet the interceptor gives the
    generic fallback. *)
Lemma numeric_body_counterexample :
  ¬ (∀ JSON_stringify ToString : Js.value → string,
       err_message
         (Gateway.on_rejected JSON_stringify ToString numeric_body_error)
       = Gateway.spec_message JSON_stringify ToString numeric_body_error).
Proof.
  intros H. specialize (H (λ _, "") (λ _, "")).
  vm_compute in H. discriminate H.
Qed.

(** C4 (amended): the interceptor yields one error, whose message is that
    of the first applicable rule of the precedence list, except that a
    body which is present but neither a string nor an object (a non-zero
    number, [true]) yields the generic fallback at once. *)
Theorem gateway_precedence
    (JSON_stringify ToString : Js.value → string)
    (error : Gateway.AxiosError) :
  Gateway.on_rejected JSON_stringify ToString error
  = mkError
      (if Gateway.opaque_body (Gateway.response_data error)
       then Gateway.fallback
       else Gateway.spec_message JSON_stringify ToString error).
Proof.
  unfold Gateway.on_rejected, Gateway.spec_message, Gateway.spec_rules,
    Gateway.opaque_body, Gateway.is_structured.
  f_equal.
  destruct (Gateway.response_data error) as [| |b|n|s|items|fields] eqn:Hd;
    simpl.
  - case_transport error.
  - case_transport error.
  - destruct b; simpl; [done|].
    case_transport error.
  - destruct (n =? 0)%Z; simpl; [|done].
    case_transport error.
  - destruct (String.eqb s ""); simpl; [|done].
    case_transport error.
  - done.
  - by destruct (Js.truthy (Js.assoc "message" fields)).
Qed.

(** ** The session store *)

Lemma or_default_nonempty (m d : string) : d ≠ "" → or_default m d ≠ "".
Proof.
  intros Hd. unfold or_default.
  destruct (String.eqb m "") eqn:E; [done|].
  intros ->. by rewrite String.eqb_refl in E.
Qed.

Section SessionFacts.
Import Session.
Variable JSON_stringify : User → string.
Variable JSON_parse : string → ParseResult.

Lemma getInitialState_complete ls i :
  getInitialState JSON_parse ls = Some i →
  init_isAuthenticated i = true →
  is_Some (init_user i) ∧ is_Some (init_token i).
Proof.
  unfold getInitialState.
  destruct (if Js.truthy_str (ls !! "user") then _ else _) as [|u]; [done|].
  intros [= <-]. simpl. intros [Ht Hu]%andb_prop.
  split.
  - by apply bool_decide_eq_true in Hu.
  - destruct (ls !! "token"); [by eexists | done].
Qed.

Lemma getInitialState_fail_closed ls i :
  getInitialState JSON_parse ls = Some i →
  ls !! "token" = None ∨ ls !! "user" = None →
  init_isAuthenticated i = false.
Proof.
  unfold getInitialState. intros Hi [Hnone|Hnone]; rewrite Hnone in Hi.
  - destruct (if Js.truthy_str (ls !! "user") then _ else _); [done|].
    by injection Hi as <-.
  - simpl in Hi. injection Hi as <-. simpl.
    apply andb_false_r.
Qed.

(** A stored user that does not parse makes the construction of the
    store throw. *)
Lemma create_malformed_throws ls text :
  ls !! "user" = Some text → text ≠ "" →
  JSON_parse text = SyntaxError →
  create JSON_parse ls = None.
Proof.
  intros Hls Htext Hparse. unfold create, getInitialState.
  rewrite Hls. simpl.
  destruct (String.eqb text "") eqn:E.
  - by apply String.eqb_eq in E.
  - simpl. by rewrite Hparse.
Qed.

Lemma create_complete ls st :
  create JSON_parse ls = Some st → identity_complete st.
Proof.
  unfold create.
  destruct (getInitialState JSON_parse ls) as [i|] eqn:Hi; [|done].
  intros [= <-] Hauth. simpl in *.
  by eapply getInitialState_complete.
Qed.

Lemma perform_complete (a : Action) (w : World) :
  identity_complete (auth w) →
  identity_complete (auth (perform JSON_stringify a w).1).
Proof.
  unfold identity_complete.
  destruct a as [c [r|e] | d [r|e] | | d [u|e] | d [r|e] | ]; simpl;
    intros H; try done; try (intros _; split; by eexists).
  intros Hauth. destruct (H Hauth) as [_ Ht]. split; [by eexists | done].
Qed.

Lemma run_complete (acts : list Action) (w : World) :
  identity_complete (auth w) →
  identity_complete (auth (run JSON_stringify acts w)).
Proof.
  revert w. induction acts as [|a acts IH]; intros w Hw; simpl; [done|].
  apply IH. by apply perform_complete.
Qed.

End SessionFacts.

(** C2, as stated, fails: hydrating from a storage that holds a token but
    no user yields a state whose credential is present and whose user is
    absent. *)
Lemma session_hydration_counterexample :
  ¬ (∀ (JSON_parse : string → Session.ParseResult) (st : Session.AuthState),
       Session.create JSON_parse orphan_token_storage = Some st →
       Session.both_or_neither st).
Proof.
  intros H.
  destruct (H (λ _, Session.SyntaxError)
              (Session.mkAuthState None (Some "abc") false None false)
              eq_refl) as [_ Hback].
  simpl in Hback. destruct Hback as [u Hu]; [by eexists | discriminate Hu].
Qed.

(** C2 (amended): the store hydrates [user] and [token] independently and
    derives [isAuthenticated] from both; so if either persisted value is
    absent the store starts not authenticated, and in every state reached
    from hydration by any run of store operations, being authenticated
    implies that both the user and the credential are present. *)
Theorem session_identity_invariant
    (JSON_stringify : Session.User → string)
    (JSON_parse : string → Session.ParseResult)
    (ls : gmap string string) (st : Session.AuthState)
    (acts : list Session.Action) :
  Session.create JSON_parse ls = Some st →
  (ls !! "token" = None ∨ ls !! "user" = None →
   Session.isAuthenticated st = false)
  ∧ (let w := Session.run JSON_stringify acts (Session.boot st ls) in
     Session.isAuthenticated (Session.auth w) = true →
     is_Some (Session.user (Session.auth w))
     ∧ is_Some (Session.token (Session.auth w))).
Proof.
  intros Hcreate. split.
  - intros Habsent. unfold Session.create in Hcreate.
    destruct (Session.getInitialState JSON_parse ls) as [i|] eqn:Hi; [|done].
    injection Hcreate as <-. simpl.
    by eapply getInitialState_fail_closed.
  - apply (run_complete JSON_stringify acts (Session.boot st ls)).
    simpl. by eapply create_complete.
Qed.

Lemma session_identity_invariant_witness :
  is_Some (Session.user
    (Session.auth (Session.run sample_stringify sample_run
                     (Session.boot sample_hydrated sample_storage))))
  ∧ is_Some (Session.token
    (Session.auth (Session.run sample_stringify sample_run
                     (Session.boot sample_hydrated sample_storage)))).
Proof.
  exact (proj2 (session_identity_invariant sample_stringify sample_parse
                  sample_storage sample_hydrated sample_run eq_refl)
               eq_refl).
Defined.

(** C7: from an anonymous state a failing [login] leaves the store
    anonymous, records a non-empty error message and re-throws the error
    it caught; [clearError] then empties the message, touches nothing
    else, and doing it twice is doing it once. *)
Theorem login_failure_keeps_anonymous
    (JSON_stringify : Session.User → string)
    (credentials : Session.LoginCredentials) (error : Error)
    (w : Session.World) :
  Session.anonymous (Session.auth w) →
  let failed := Session.login JSON_stringify credentials (Rejected error) w in
  let cleared := Session.clearError failed.1 in
  (Session.isAuthenticated (Session.auth failed.1) = false
   ∧ Session.user (Session.auth failed.1) = None
   ∧ Session.token (Session.auth failed.1) = None
   ∧ (∃ m, Session.error (Session.auth failed.1) = Some m ∧ m ≠ "")
   ∧ failed.2 = Thrown error)
  ∧ (Session.error (Session.auth cleared.1) = None
     ∧ Session.user (Session.auth cleared.1)
       = Session.user (Session.auth failed.1)
     ∧ Session.token (Session.auth cleared.1)
       = Session.token (Session.auth failed.1)
     ∧ Session.isAuthenticated (Session.auth cleared.1)
       = Session.isAuthenticated (Session.auth failed.1)
     ∧ Session.loading (Session.auth cleared.1)
       = Session.loading (Session.auth failed.1)
     ∧ Session.localStorage cleared.1 = Session.localStorage failed.1
     ∧ cleared.2 = Returned tt)
  ∧ Session.clearError cleared.1 = cleared.
Proof.
  intros (Hu & Ht & Ha). simpl. repeat split; try done.
  eexists. split; [done|]. by apply or_default_nonempty.
Qed.

Lemma login_failure_keeps_anonymous_witness :
  let w := Session.boot (Session.mkAuthState None None false None false) ∅ in
  let failed :=
    Session.login sample_stringify sample_credentials
      (Rejected (mkError "Invalid credentials")) w in
  Session.error (Session.auth failed.1) = Some "Invalid credentials"
  ∧ Session.isAuthenticated (Session.auth failed.1) = false
  ∧ failed.2 = Thrown (mkError "Invalid credentials")
  ∧ Session.error (Session.auth (Session.clearError failed.1).1) = None.
Proof.
  pose proof (login_failure_keeps_anonymous sample_stringify
                sample_credentials (mkError "Invalid credentials")
                (Session.boot
                   (Session.mkAuthState None None false None false) ∅)
                (conj eq_refl (conj eq_refl eq_refl))) as H.
  simpl in H. destruct H as ((Ha & _ & _ & _ & Hthrown) & (Hc & _) & _).
  simpl. repeat split; done.
Defined.

(** C10: [logout] clears the recorded error as well as the user, the
    credential and the authenticated flag, forgets the persisted identity,
    sends nothing to the gateway, and returns normally whatever the state. *)
Theorem logout_resets_error_without_network
    (w : Session.World) :
  let out := Session.logout w in
  Session.error (Session.auth out.1) = None
  ∧ Session.user (Session.auth out.1) = None
  ∧ Session.token (Session.auth out.1) = None
  ∧ Session.isAuthenticated (Session.auth out.1) = false
  ∧ Session.loading (Session.auth out.1) = Session.loading (Session.auth w)
  ∧ Session.localStorage out.1 !! "token" = None
  ∧ Session.localStorage out.1 !! "user" = None
  ∧ Session.sent out.1 = Session.sent w
  ∧ out.2 = Returned tt.
Proof.
  simpl. repeat split.
  - rewrite lookup_delete_ne; [|done]. apply lookup_delete_eq.
  - apply lookup_delete_eq.
Qed.

(** ** The note store *)

Section NoteStoreFacts.
Import NoteStore.

(** A list with exactly one element satisfying [P] splits around it. *)
Lemma filter_single_split {A : Type} (P : A → Prop)
    `{∀ x, Decision (P x)} (l : list A) :
  length (filter P l) = 1 →
  ∃ before x after,
    l = before ++ x :: after ∧ P x
    ∧ filter (λ y, ¬ P y) l = before ++ after.
Proof.
  induction l as [|y l IH]; simpl; [done|].
  rewrite !filter_cons. destruct (decide (P y)) as [Hy|Hy].
  - simpl. intros Hlen.
    exists [], y, l. split; [done|]. split; [done|].
    rewrite decide_False by tauto. simpl.
    assert (Hnil : filter P l = []).
    { apply nil_length_inv. lia. }
    clear IH Hlen. induction l as [|z l IHl]; [done|].
    rewrite filter_cons in Hnil. rewrite filter_cons.
    destruct (decide (P z)); [done|].
    rewrite decide_True by done. f_equal. by apply IHl.
  - intros Hlen. destruct (IH Hlen) as (before & x & after & -> & Hx & Hf).
    exists (y :: before), x, after. split; [done|]. split; [done|].
    rewrite decide_True by done. simpl. by rewrite Hf.
Qed.

Lemma perform_flags (a : Action) (w : World) :
  respects_endpoint a →
  active_live (store w) ∧ trash_deleted (store w) →
  active_live (store (perform a w)) ∧ trash_deleted (store (perform a w)).
Proof.
  unfold active_live, trash_deleted.
  destruct a as [[r|e] | [r|e] | i [r|e] | d [r|e] | i d [r|e] | i [r|e]
                | i [r|e] | ]; simpl; intros Hr [Hlive Hdel];
    try (split; assumption).
  - split; [|done]. intros n Hn. by eapply Forall_forall in Hr.
  - split; [done|]. intros n Hn. by eapply Forall_forall in Hr.
  - split; [|done]. intros n [->|Hn]%elem_of_cons; [done | by apply Hlive].
  - split; [|done]. intros n (m & -> & Hm)%list_elem_of_fmap.
    destruct (decide (id m = i)); [done | by apply Hlive].
  - split; [|done]. intros n [_ Hn]%list_elem_of_filter. by apply Hlive.
  - split.
    + intros n [->|Hn]%elem_of_cons; [done | by apply Hlive].
    + intros n [_ Hn]%list_elem_of_filter. by apply Hdel.
Qed.

End NoteStoreFacts.

(** C1, as stated, fails: updating note [a] while note [b] is the current
    note replaces the current note although its id does not match. *)
Lemma updateNote_current_counterexample :
  NoteStore.currentNote
    (NoteStore.store
       (NoteStore.updateNote "a" sample_update
          (Resolved (NoteStore.Enveloped (sample_note "a" "A2" false)))
          two_notes_second_open).1)
  ≠ NoteStore.current_if_matching "a" (sample_note "a" "A2" false)
      (NoteStore.currentNote (NoteStore.store two_notes_second_open)).
Proof. vm_compute. discriminate. Qed.

(** C1 (amended): a successful [updateNote] replaces, position by
    position, every entry of the active collection whose id matches by
    the note the server returned and keeps every other entry, so length
    and order are preserved; the trash collection is untouched; and the
    current-note slot is set to the returned note whatever it held. *)
Theorem updateNote_replaces_in_place
    (i : string) (noteData : NoteStore.UpdateNoteRequest)
    (response : NoteStore.Envelope NoteStore.Note) (w : NoteStore.World) :
  let out := NoteStore.updateNote i noteData (Resolved response) w in
  let updatedNote := NoteStore.unwrap response in
  length (NoteStore.notes (NoteStore.store out.1))
  = length (NoteStore.notes (NoteStore.store w))
  ∧ (∀ k, NoteStore.notes (NoteStore.store out.1) !! k
          = (λ note, if decide (NoteStore.id note = i)
                     then updatedNote else note)
            <$> NoteStore.notes (NoteStore.store w) !! k)
  ∧ (∀ k note, NoteStore.notes (NoteStore.store w) !! k = Some note →
               NoteStore.id note ≠ i →
               NoteStore.notes (NoteStore.store out.1) !! k = Some note)
  ∧ NoteStore.deletedNotes (NoteStore.store out.1)
    = NoteStore.deletedNotes (NoteStore.store w)
  ∧ NoteStore.currentNote (NoteStore.store out.1) = Some updatedNote
  ∧ out.2 = Returned tt.
Proof.
  simpl. split; [by rewrite length_fmap|].
  split; [intros k; by rewrite list_lookup_fmap|].
  split; [|done].
  intros k note Hk Hne. rewrite list_lookup_fmap, Hk. simpl.
  by rewrite decide_False.
Qed.

(** C5: when exactly one entry of the active collection has the given
    id, a successful [deleteNote] removes that entry and nothing else:
    the entries before and after it stay as they were, the length drops
    by one, and the trash collection is unchanged. *)
Theorem deleteNote_removes_exactly_one
    (i : string) (w : NoteStore.World) :
  length (filter (λ note, NoteStore.id note = i)
            (NoteStore.notes (NoteStore.store w))) = 1 →
  let out := NoteStore.deleteNote i (Resolved tt) w in
  (∃ before x after,
     NoteStore.notes (NoteStore.store w) = before ++ x :: after
     ∧ NoteStore.id x = i
     ∧ NoteStore.notes (NoteStore.store out.1) = before ++ after)
  ∧ S (length (NoteStore.notes (NoteStore.store out.1)))
    = length (NoteStore.notes (NoteStore.store w))
  ∧ NoteStore.deletedNotes (NoteStore.store out.1)
    = NoteStore.deletedNotes (NoteStore.store w)
  ∧ out.2 = Returned tt.
Proof.
  intros Hone. simpl.
  destruct (filter_single_split _ _ Hone)
    as (before & x & after & Hsplit & Hx & Hrest).
  split; [by exists before, x, after|].
  split; [|done].
  rewrite Hrest, Hsplit, !length_app. simpl. lia.
Qed.

Lemma deleteNote_removes_exactly_one_witness :
  NoteStore.notes
    (NoteStore.store
       (NoteStore.deleteNote "a" (Resolved tt) two_notes_second_open).1)
  = [sample_note "b" "B" false]
  ∧ S (length (NoteStore.notes
         (NoteStore.store
            (NoteStore.deleteNote "a" (Resolved tt)
               two_notes_second_open).1)))
    = 2.
Proof.
  split; [reflexivity|].
  exact (proj1 (proj2 (deleteNote_removes_exactly_one "a"
                         two_notes_second_open eq_refl))).
Defined.

(** C8, as stated, fails: two listings, each right for its endpoint when
    it is made, leave the same id in the active and in the trash
    collection. *)
Lemma collections_invariant_counterexample :
  Forall NoteStore.respects_endpoint stale_listing_run
  ∧ ¬ NoteStore.collections_invariant
        (NoteStore.store (NoteStore.run stale_listing_run NoteStore.initial)).
Proof.
  split.
  - repeat constructor.
  - intros (_ & _ & Hdisj).
    apply (Hdisj (sample_note "a" "A" false) (sample_note "a" "A" true));
      simpl; by constructor.
Qed.

(** C8 (amended): the store keeps what the server sends; provided every
    response respects its endpoint (the active listing holds live notes,
    the trash listing deleted ones, a created, updated or restored note
    is live), in every state reached from the empty one no deleted note
    is in the active collection and no live note is in the trash
    collection. *)
Theorem collections_flags_invariant (acts : list NoteStore.Action) :
  Forall NoteStore.respects_endpoint acts →
  NoteStore.active_live
    (NoteStore.store (NoteStore.run acts NoteStore.initial))
  ∧ NoteStore.trash_deleted
      (NoteStore.store (NoteStore.run acts NoteStore.initial)).
Proof.
  assert (Hgen : ∀ w,
    Forall NoteStore.respects_endpoint acts →
    NoteStore.active_live (NoteStore.store w)
    ∧ NoteStore.trash_deleted (NoteStore.store w) →
    NoteStore.active_live (NoteStore.store (NoteStore.run acts w))
    ∧ NoteStore.trash_deleted (NoteStore.store (NoteStore.run acts w))).
  { induction acts as [|a acts IH]; intros w Hall Hw; simpl; [done|].
    inversion Hall as [|? ? Ha Hrest]; subst.
    apply IH; [done|]. by apply perform_flags. }
  intros Hall. apply Hgen; [done|].
  split; intros n Hn; simpl in Hn; by apply elem_of_nil in Hn.
Qed.

Lemma collections_flags_invariant_witness :
  Forall NoteStore.respects_endpoint sample_note_run
  ∧ NoteStore.active_live
      (NoteStore.store (NoteStore.run sample_note_run NoteStore.initial))
  ∧ NoteStore.trash_deleted
      (NoteStore.store (NoteStore.run sample_note_run NoteStore.initial)).
Proof.
  assert (Hall : Forall NoteStore.respects_endpoint sample_note_run).
  { repeat constructor. }
  split; [exact Hall|].
  exact (collections_flags_invariant sample_note_run Hall).
Defined.

(** ** Markdown *)

Section MarkdownFacts.
Import Markdown.

Lemma replace_from_length (m : matcher) :
  shrinking m → ∀ s k, length (replace_from m k s) ≤ length s - k.
Proof.
  intros Hm s. induction s as [|c rest IH]; intros k; simpl; [lia|].
  destruct k as [|k]; [|apply IH].
  destruct (m (c :: rest)) as [[n r]|] eqn:E.
  - destruct (Hm _ _ _ E) as [Hn Hs]. simpl in Hs.
    destruct n as [|n]; rewrite length_app; simpl.
    + specialize (IH 0). lia.
    + specialize (IH n). lia.
  - simpl. specialize (IH 0). lia.
Qed.

Lemma replace_all_length (m : matcher) (s : jsstring) :
  shrinking m → length (replace_all m s) ≤ length s.
Proof.
  intros Hm. unfold replace_all.
  pose proof (replace_from_length m Hm s 0). lia.
Qed.

(** A matcher given by nested case analysis: walk its branches; what is
    left compares the length of the replacement with the count. *)
Ltac walk_matcher m :=
  intros s n r; unfold m; intros H;
  repeat case_match; simplify_eq;
  rewrite ?length_take; simpl; lia.

Lemma match_fence_shrinking q : shrinking (match_fence q).
Proof. walk_matcher match_fence. Qed.

Lemma match_inline_code_shrinking : shrinking match_inline_code.
Proof. walk_matcher match_inline_code. Qed.

Lemma match_link_body_shrinking : shrinking match_link_body.
Proof. walk_matcher match_link_body. Qed.

Lemma match_link_shrinking : shrinking match_link.
Proof.
  intros s n r. unfold match_link. intros H.
  destruct s as [|c rest]; [done|].
  destruct (c =? BANG)%N; [|by apply match_link_body_shrinking].
  destruct (match_link_body rest) as [[k label]|] eqn:E.
  - injection H as <- <-.
    destruct (match_link_body_shrinking _ _ _ E). simpl. lia.
  - by apply match_link_body_shrinking.
Qed.

Lemma match_symbol_shrinking : shrinking match_symbol.
Proof. walk_matcher match_symbol. Qed.

Lemma match_list_item_shrinking : shrinking match_list_item.
Proof. walk_matcher match_list_item. Qed.

Lemma match_run_shrinking p : shrinking (match_run p).
Proof.
  intros s n r. unfold match_run. intros H.
  destruct s as [|c rest]; [done|].
  destruct (count_while p (c :: rest)) eqn:E; [done|].
  injection H as <- <-. simpl. lia.
Qed.

Lemma drop_while_length p (s : jsstring) :
  length (drop_while p s) ≤ length s.
Proof.
  induction s as [|c rest IH]; simpl; [done|].
  destruct (p c); simpl; lia.
Qed.

Lemma trim_length (s : jsstring) : length (trim s) ≤ length s.
Proof.
  unfold trim. rewrite length_reverse.
  etrans; [apply drop_while_length|].
  rewrite length_reverse. apply drop_while_length.
Qed.

Create HintDb shrink discriminated.
#[local] Hint Resolve match_fence_shrinking match_inline_code_shrinking
  match_link_shrinking match_symbol_shrinking match_list_item_shrinking
  match_run_shrinking : shrink.

(** Deriving the plain text never lengthens the input: each of the eight
    replacements shrinks, and so does [trim]. *)
Lemma plain_text_length (markdown : jsstring) :
  length (plain_text markdown) ≤ length markdown.
Proof.
  unfold plain_text.
  etrans; [apply trim_length|].
  do 7 (etrans; [apply replace_all_length; auto with shrink|]).
  apply replace_all_length; auto with shrink.
Qed.

Lemma last_index_upto_le c (s : jsstring) (i limit found : Z) :
  (found ≤ limit)%Z → (last_index_upto c s i limit found ≤ limit)%Z.
Proof.
  revert i found. induction s as [|x rest IH]; intros i found Hf; simpl;
    [done|].
  apply IH. destruct (x =? c)%N; simpl; [|done].
  destruct (i <=? limit)%Z eqn:E; [|done]. by apply Z.leb_le.
Qed.

Lemma last_index_upto_ge c (s : jsstring) (i limit found : Z) :
  (found < i)%Z → (found ≤ last_index_upto c s i limit found)%Z.
Proof.
  revert i found. induction s as [|x rest IH]; intros i found Hf; simpl;
    [done|].
  destruct ((x =? c)%N && (i <=? limit)%Z).
  - etrans; [|apply IH]; lia.
  - apply IH. lia.
Qed.

(** The index found holds [c], unless none was found. *)
Lemma last_index_upto_sound c (s : jsstring) (i limit found : Z) :
  (0 ≤ i)%Z →
  let r := last_index_upto c s i limit found in
  r = found ∨ ((i ≤ r)%Z ∧ s !! Z.to_nat (r - i) = Some c).
Proof.
  revert i found. induction s as [|x rest IH]; intros i found Hi; simpl;
    [by left|].
  destruct ((x =? c)%N && (i <=? limit)%Z) eqn:E.
  - apply andb_prop in E as [Hx _]. apply N.eqb_eq in Hx. subst x.
    destruct (IH (i + 1)%Z i ltac:(lia)) as [->|[Hle Hlook]].
    + right. split; [lia|]. by rewrite Z.sub_diag.
    + right. split; [lia|].
      replace (Z.to_nat (last_index_upto c rest (i + 1) limit i - i))
        with (S (Z.to_nat (last_index_upto c rest (i + 1) limit i - (i + 1))))
        by lia.
      done.
  - destruct (IH (i + 1)%Z found ltac:(lia)) as [->|[Hle Hlook]];
      [by left|].
    right. split; [lia|].
    replace (Z.to_nat (last_index_upto c rest (i + 1) limit found - i))
      with (S (Z.to_nat (last_index_upto c rest (i + 1) limit found - (i + 1))))
      by lia.
    done.
Qed.

(** No later index within the limit holds [c]. *)
Lemma last_index_upto_max c (s : jsstring) (i limit found : Z) (k : nat) :
  s !! k = Some c → (i + Z.of_nat k ≤ limit)%Z →
  (i + Z.of_nat k ≤ last_index_upto c s i limit found)%Z.
Proof.
  revert i found k. induction s as [|x rest IH]; intros i found k Hk Hlim;
    [done|].
  simpl. destruct k as [|k].
  - injection Hk as ->. rewrite N.eqb_refl. simpl.
    replace (i <=? limit)%Z with true by (symmetry; apply Z.leb_le; lia).
    etrans; [|apply last_index_upto_ge]; lia.
  - simpl in Hk.
    specialize (IH (i + 1)%Z
                  (if (x =? c)%N && (i <=? limit)%Z then i else found)
                  k Hk ltac:(lia)).
    lia.
Qed.

Lemma lastIndexOf_le (s : jsstring) c (fromIndex : Z) :
  (0 ≤ fromIndex)%Z → (lastIndexOf s c fromIndex ≤ fromIndex)%Z.
Proof.
  intros H. unfold lastIndexOf. rewrite Z.max_l by done.
  apply last_index_upto_le. lia.
Qed.

Lemma lastIndexOf_sound (s : jsstring) c (fromIndex : Z) :
  (0 ≤ lastIndexOf s c fromIndex)%Z →
  s !! Z.to_nat (lastIndexOf s c fromIndex) = Some c.
Proof.
  unfold lastIndexOf. intros H.
  destruct (last_index_upto_sound c s 0 (Z.max fromIndex 0) (-1) ltac:(lia))
    as [E|[_ Hlook]]; [lia|].
  by rewrite Z.sub_0_r in Hlook.
Qed.

Lemma lastIndexOf_max (s : jsstring) c (fromIndex j : Z) :
  (0 ≤ j)%Z → s !! Z.to_nat j = Some c → (j ≤ fromIndex)%Z →
  (j ≤ lastIndexOf s c fromIndex)%Z.
Proof.
  intros Hj Hlook Hle. unfold lastIndexOf.
  pose proof (last_index_upto_max c s 0 (Z.max fromIndex 0) (-1)
                (Z.to_nat j) Hlook ltac:(lia)).
  lia.
Qed.

Lemma break_point_bounds (p : jsstring) (maxLength : Z) :
  (0 ≤ maxLength)%Z → (0 ≤ break_point p maxLength ≤ maxLength)%Z.
Proof.
  intros HM. unfold break_point.
  pose proof (lastIndexOf_le p SPACE maxLength HM).
  destruct (4 * maxLength <? 5 * lastIndexOf p SPACE maxLength)%Z eqn:E;
    [|lia].
  apply Z.ltb_lt in E. lia.
Qed.

Lemma break_point_chosen (p : jsstring) (maxLength : Z) :
  (0 ≤ maxLength)%Z → chosen_break p maxLength (break_point p maxLength).
Proof.
  intros HM. unfold break_point, chosen_break.
  pose proof (lastIndexOf_le p SPACE maxLength HM) as Hle.
  destruct (4 * maxLength <? 5 * lastIndexOf p SPACE maxLength)%Z eqn:E.
  - apply Z.ltb_lt in E. left. split.
    + repeat split; [lia | apply lastIndexOf_sound; lia | done | done].
    + intros j (Hj & Hlook & HjM & _). by apply lastIndexOf_max.
  - apply Z.ltb_ge in E. right. split; [|done].
    intros j (Hj & Hlook & HjM & Hfar).
    pose proof (lastIndexOf_max p SPACE maxLength j Hj Hlook HjM). lia.
Qed.

Lemma substring_length (s : jsstring) (start end_ : Z) :
  length (substring s start end_)
  ≤ Nat.max (Z.to_nat start) (Z.to_nat end_)
    - Nat.min (Z.to_nat start) (Z.to_nat end_).
Proof. unfold substring. rewrite length_drop, length_take. lia. Qed.

Lemma truncated_length (p : jsstring) (maxLength : Z) :
  (0 ≤ maxLength)%Z →
  (Z.of_nat (length (trim (substring p 0 (break_point p maxLength))))
   ≤ maxLength)%Z.
Proof.
  intros HM. pose proof (break_point_bounds p maxLength HM).
  pose proof (trim_length (substring p 0 (break_point p maxLength))) as Ht.
  pose proof (substring_length p 0 (break_point p maxLength)).
  lia.
Qed.

Lemma extractSynopsis_unfold (markdown : jsstring) (maxLength : Z) :
  (0 ≤ maxLength)%Z →
  extractSynopsis markdown maxLength
  = if (maxLength <? Z.of_nat (length (plain_text markdown)))%Z
    then trim (substring (plain_text markdown) 0
                 (break_point (plain_text markdown) maxLength)) ++ ellipsis
    else plain_text markdown.
Proof.
  intros HM. destruct markdown as [|c rest]; [|reflexivity].
  change (plain_text []) with (@nil N).
  change (Z.of_nat (length (@nil N))) with 0%Z.
  destruct (maxLength <? 0)%Z eqn:E; [|reflexivity].
  apply Z.ltb_lt in E. lia.
Qed.

End MarkdownFacts.

(** C3, as stated, fails on each of three counts: a six-unit input cut at
    3 gives six units, more than 3 + 1; an input longer than 3 whose plain
    text is empty gets no ellipsis; and a space exactly at four fifths of
    10 is not taken as the break point. *)
Lemma extractSynopsis_counterexample :
  (3 < length (Markdown.js "abcdef")
   ∧ ¬ length (Markdown.extractSynopsis (Markdown.js "abcdef") 3) ≤ 3 + 1)
  ∧ (3 < length (Markdown.js "`code`")
     ∧ ¬ Markdown.ends_with Markdown.ellipsis
           (Markdown.extractSynopsis (Markdown.js "`code`") 3))
  ∧ (Markdown.js "abcdefgh ijkl" !! 8 = Some Markdown.SPACE
     ∧ Markdown.extractSynopsis (Markdown.js "abcdefgh ijkl") 10
       = Markdown.js "abcdefgh i..."
     ∧ Markdown.extractSynopsis (Markdown.js "abcdefgh ijkl") 10
       ≠ Markdown.trim (Markdown.substring (Markdown.js "abcdefgh ijkl") 0 8)
         ++ Markdown.ellipsis).
Proof.
  split; [|split].
  - split; [vm_compute; lia|]. vm_compute. lia.
  - split; [vm_compute; lia|].
    intros [body Hbody]. vm_compute in Hbody.
    by destruct body as [|? [|? [|? [|? ?]]]].
  - split; [reflexivity|]. split; [by vm_compute|].
    vm_compute. discriminate.
Qed.

(** C3 (amended): an input shorter than [maxLength] comes back as its
    whitespace-collapsed plain text, nothing appended; when the plain text
    is longer than [maxLength] (not negative), the output is the plain
    text cut at the break point, trimmed, followed by the three-unit
    ellipsis, so at most [maxLength + 3] units long; the break point is
    the last space at an index at most [maxLength] and strictly beyond
    four fifths of it when there is one, else [maxLength]. *)
Theorem extractSynopsis_truncation
    (markdown : Markdown.jsstring) (maxLength : Z) :
  (0 ≤ maxLength)%Z →
  ((Z.of_nat (length markdown) < maxLength)%Z →
   Markdown.extractSynopsis markdown maxLength = Markdown.plain_text markdown)
  ∧ ((maxLength < Z.of_nat (length (Markdown.plain_text markdown)))%Z →
     ∃ b : Z,
       Markdown.chosen_break (Markdown.plain_text markdown) maxLength b
       ∧ Markdown.extractSynopsis markdown maxLength
         = Markdown.trim (Markdown.substring (Markdown.plain_text markdown) 0 b)
           ++ Markdown.ellipsis
       ∧ Markdown.ends_with Markdown.ellipsis
           (Markdown.extractSynopsis markdown maxLength)
       ∧ (Z.of_nat (length (Markdown.extractSynopsis markdown maxLength))
          ≤ maxLength + 3)%Z).
Proof.
  intros HM. rewrite extractSynopsis_unfold by done. split.
  - intros Hshort. pose proof (plain_text_length markdown).
    destruct (maxLength <? _)%Z eqn:E; [|done].
    apply Z.ltb_lt in E. lia.
  - intros Hlong.
    destruct (maxLength <? _)%Z eqn:E; [|apply Z.ltb_ge in E; lia].
    exists (Markdown.break_point (Markdown.plain_text markdown) maxLength).
    split; [by apply break_point_chosen|].
    split; [done|]. split; [by eexists|].
    rewrite length_app.
    pose proof (truncated_length (Markdown.plain_text markdown) maxLength HM).
    change (length Markdown.ellipsis) with 3. lia.
Qed.

Lemma extractSynopsis_truncation_witness :
  Markdown.extractSynopsis (Markdown.js "# Hi") 10 = Markdown.js "Hi"
  ∧ ∃ b : Z,
      Markdown.chosen_break
        (Markdown.plain_text (Markdown.js "one two three four")) 10 b
      ∧ Markdown.extractSynopsis (Markdown.js "one two three four") 10
        = Markdown.trim
            (Markdown.substring
               (Markdown.plain_text (Markdown.js "one two three four")) 0 b)
          ++ Markdown.ellipsis
      ∧ Markdown.ends_with Markdown.ellipsis
          (Markdown.extractSynopsis (Markdown.js "one two three four") 10)
      ∧ (Z.of_nat (length (Markdown.extractSynopsis
                             (Markdown.js "one two three four") 10))
         ≤ 10 + 3)%Z.
Proof.
  split.
  - rewrite (proj1 (extractSynopsis_truncation (Markdown.js "# Hi") 10
                      ltac:(lia)) ltac:(vm_compute; reflexivity)).
    reflexivity.
  - apply (proj2 (extractSynopsis_truncation
                    (Markdown.js "one two three four") 10 ltac:(lia))).
    vm_compute. reflexivity.
Defined.

(** Whatever the two libraries do, [markdownToHtml] gives the empty
    string for the empty string, and otherwise what the sanitizer returns
    for the converted text under the fixed configuration. *)
Lemma markdownToHtml_empty
    (marked : Markdown.jsstring → Markdown.jsstring)
    (DOMPurify_sanitize :
       Markdown.jsstring → Markdown.SanitizeConfig → Markdown.jsstring) :
  Markdown.markdownToHtml marked DOMPurify_sanitize [] = [].
Proof. reflexivity. Qed.

Lemma markdownToHtml_sanitized
    (marked : Markdown.jsstring → Markdown.jsstring)
    (DOMPurify_sanitize :
       Markdown.jsstring → Markdown.SanitizeConfig → Markdown.jsstring)
    (markdown : Markdown.jsstring) :
  markdown ≠ [] →
  Markdown.markdownToHtml marked DOMPurify_sanitize markdown
  = DOMPurify_sanitize (marked markdown) Markdown.sanitize_config.
Proof. by destruct markdown. Qed.


(** * Further properties *)

(** ** The note store: failure, outcome, removal, composition *)

Section NoteStoreMore.
Import NoteStore.

Lemma filter_keeps_all {A : Type} (P : A → Prop) `{∀ x, Decision (P x)}
    (l : list A) :
  (∀ x, x ∈ l → P x) → filter P l = l.
Proof.
  induction l as [|x l IH]; intros Hall; [done|].
  rewrite filter_cons, decide_True by (apply Hall; left).
  f_equal. apply IH. intros y Hy. apply Hall. by right.
Qed.

Lemma fmap_keeps_all {A : Type} (f : A → A) (l : list A) :
  (∀ x, x ∈ l → f x = x) → f <$> l = l.
Proof.
  induction l as [|x l IH]; intros Hall; [done|].
  simpl. rewrite Hall by left. f_equal. apply IH.
  intros y Hy. apply Hall. by right.
Qed.

End NoteStoreMore.

(** X1: whichever operation of the note store is rejected, both
    collections and the current note stay as they were, the pending flag
    is cleared, a non-empty message is recorded, and the very error that
    was caught is thrown to the caller. *)
Theorem note_operation_failure
    (a : NoteStore.Action) (w : NoteStore.World) (e : Error) :
  NoteRuns.rejection a = Some e →
  let w' := NoteStore.perform a w in
  NoteStore.notes (NoteStore.store w') = NoteStore.notes (NoteStore.store w)
  ∧ NoteStore.deletedNotes (NoteStore.store w')
    = NoteStore.deletedNotes (NoteStore.store w)
  ∧ NoteStore.currentNote (NoteStore.store w')
    = NoteStore.currentNote (NoteStore.store w)
  ∧ NoteStore.loading (NoteStore.store w') = false
  ∧ (∃ m, NoteStore.error (NoteStore.store w') = Some m ∧ m ≠ "")
  ∧ NoteRuns.completion a w = Some e.
Proof.
  destruct a as [[r|e'] | [r|e'] | i [r|e'] | d [r|e'] | i d [r|e']
                | i [r|e'] | i [r|e'] | ]; simpl; intros [= ->];
    repeat split; try done;
    (eexists; split; [done|]; by apply or_default_nonempty).
Qed.

Lemma note_operation_failure_witness :
  NoteStore.notes
    (NoteStore.store
       (NoteStore.perform
          (NoteStore.DeleteNote "a" (Rejected (mkError "Network Error")))
          two_notes_second_open))
  = NoteStore.notes (NoteStore.store two_notes_second_open)
  ∧ NoteRuns.completion
      (NoteStore.DeleteNote "a" (Rejected (mkError "Network Error")))
      two_notes_second_open
    = Some (mkError "Network Error").
Proof.
  pose proof (note_operation_failure
                (NoteStore.DeleteNote "a" (Rejected (mkError "Network Error")))
                two_notes_second_open (mkError "Network Error") eq_refl)
    as (Hnotes & _ & _ & _ & _ & Hthrown).
  split; [exact Hnotes | exact Hthrown].
Defined.

Section NoteOverlap.
Import NoteStore NoteRuns.

(** The operation as a whole is its two parts, one after the other. *)
Lemma perform_start_settle (a : Action) (w : World) :
  perform a w = settle a (start a w).
Proof.
  by destruct a as [[r|e] | [r|e] | i [r|e] | d [r|e] | i d [r|e]
                   | i [r|e] | i [r|e] | ].
Qed.

Lemma interleave_sequential (acts : list Action) (w : World) :
  interleave (sequential acts) w = run acts w.
Proof.
  revert w. induction acts as [|a acts IH]; intros w; [done|].
  unfold interleave, sequential in *. simpl.
  rewrite IH. by rewrite perform_start_settle.
Qed.

Lemma start_error (a : Action) (w : World) :
  a ≠ ClearError →
  error (store (start a w)) = None ∧ loading (store (start a w)) = true.
Proof. by destruct a. Qed.

Lemma settle_success_error (a : Action) (w : World) :
  rejection a = None → a ≠ ClearError →
  error (store (settle a w)) = error (store w)
  ∧ loading (store (settle a w)) = false.
Proof.
  by destruct a as [[r|e] | [r|e] | i [r|e] | d [r|e] | i d [r|e]
                   | i [r|e] | i [r|e] | ].
Qed.

Lemma settle_failure_error (a : Action) (w : World) (e : Error) :
  rejection a = Some e →
  error (store (settle a w))
  = Some (or_default (err_message e) (failure_text a)).
Proof.
  destruct a as [[r|e'] | [r|e'] | i [r|e'] | d [r|e'] | i d [r|e']
                | i [r|e'] | i [r|e'] | ]; simpl; by intros [= ->].
Qed.

Lemma failure_text_nonempty (a : Action) (e : Error) :
  rejection a = Some e → failure_text a ≠ "".
Proof. by destruct a. Qed.

Lemma error_explained_grows (steps : list Step) (s : Step) (w w' : World) :
  error (store w') = error (store w) →
  error_explained steps w → error_explained (steps ++ [s]) w'.
Proof.
  intros Heq H m Hm. rewrite Heq in Hm.
  destruct (H m Hm) as (Hne & b & e & Hin & Hrej & Hmsg).
  split; [done|]. exists b, e. split; [|done].
  apply elem_of_app. by left.
Qed.

Lemma interleave_error_explained (steps : list Step) :
  error_explained steps (interleave steps initial).
Proof.
  unfold interleave.
  induction steps as [|s steps IH] using rev_ind; [by intros m Hm|].
  rewrite foldl_snoc. destruct s as [a|a]; simpl.
  - destruct a;
      first [intros m Hm; by simpl in Hm
            | by apply (error_explained_grows _ _ (foldl step initial steps))].
  - destruct (rejection a) as [e|] eqn:Hrej.
    + intros m Hm. rewrite (settle_failure_error a _ e Hrej) in Hm.
      injection Hm as <-. split.
      * apply or_default_nonempty. by eapply failure_text_nonempty.
      * exists a, e. split; [|done]. apply elem_of_app. right. by left.
    + destruct a as [[r|e] | [r|e] | i [r|e] | d [r|e] | i d [r|e]
                    | i [r|e] | i [r|e] | ]; try discriminate Hrej;
        first [intros m Hm; by simpl in Hm
              | by apply (error_explained_grows _ _
                            (foldl step initial steps))].
Qed.

End NoteOverlap.

(** X2: the error field when operations overlap.  An operation clears
    the error when it starts and records a message only when it settles
    rejected; settling with success leaves the error as it finds it, so a
    successful operation can end under another operation's message.
    Whatever the schedule of starts and settlements from the initial
    state, a message shown is never empty and is the message (or the
    default text) of a rejected operation that settled in that schedule.
    Without overlap an operation is its start followed by its
    settlement. *)
Theorem note_error_under_overlap
    (steps : list NoteRuns.Step) (a : NoteStore.Action)
    (w0 : NoteStore.World) :
  let w := NoteRuns.interleave steps NoteStore.initial in
  (∀ m, NoteStore.error (NoteStore.store w) = Some m →
     m ≠ ""
     ∧ ∃ b e, NoteRuns.Settle b ∈ steps ∧ NoteRuns.rejection b = Some e
              ∧ m = or_default (err_message e) (NoteRuns.failure_text b))
  ∧ (NoteRuns.rejection a = None → a ≠ NoteStore.ClearError →
     NoteStore.error (NoteStore.store (NoteRuns.settle a w0))
     = NoteStore.error (NoteStore.store w0)
     ∧ NoteStore.loading (NoteStore.store (NoteRuns.settle a w0)) = false)
  ∧ (a ≠ NoteStore.ClearError →
     NoteStore.error (NoteStore.store (NoteRuns.start a w0)) = None
     ∧ NoteStore.loading (NoteStore.store (NoteRuns.start a w0)) = true)
  ∧ NoteStore.perform a w0 = NoteRuns.settle a (NoteRuns.start a w0).
Proof.
  simpl. split; [apply interleave_error_explained|].
  split; [apply settle_success_error|].
  split; [apply start_error | apply perform_start_settle].
Qed.

Lemma note_error_under_overlap_witness :
  NoteStore.error
    (NoteStore.store (NoteRuns.interleave overlapped_schedule
                        NoteStore.initial))
  = Some "Network Error"
  ∧ NoteStore.notes
      (NoteStore.store (NoteRuns.interleave overlapped_schedule
                          NoteStore.initial))
    = [sample_note "a" "A" false]
  ∧ "Network Error" ≠ ""
  ∧ ∃ b e, NoteRuns.Settle b ∈ overlapped_schedule
           ∧ NoteRuns.rejection b = Some e
           ∧ "Network Error"
             = or_default (err_message e) (NoteRuns.failure_text b).
Proof.
  split; [reflexivity|]. split; [reflexivity|].
  exact (proj1 (note_error_under_overlap overlapped_schedule
                  NoteStore.ClearError NoteStore.initial)
           "Network Error" eq_refl).
Defined.

(** X3: a successful [deleteNote] removes every entry with the given id
    and no other entry; when no entry has that id the active collection is
    unchanged, so deleting again changes nothing. *)
Theorem deleteNote_removes_every_match
    (i : string) (w : NoteStore.World) :
  let w' := (NoteStore.deleteNote i (Resolved tt) w).1 in
  (∀ n, n ∈ NoteStore.notes (NoteStore.store w')
        ↔ n ∈ NoteStore.notes (NoteStore.store w) ∧ NoteStore.id n ≠ i)
  ∧ ((∀ n, n ∈ NoteStore.notes (NoteStore.store w) → NoteStore.id n ≠ i) →
     NoteStore.notes (NoteStore.store w')
     = NoteStore.notes (NoteStore.store w))
  ∧ NoteStore.notes
      (NoteStore.store (NoteStore.deleteNote i (Resolved tt) w').1)
    = NoteStore.notes (NoteStore.store w').
Proof.
  simpl. split; [|split].
  - intros n. rewrite list_elem_of_filter. tauto.
  - intros Hnone. by apply filter_keeps_all.
  - apply filter_keeps_all. by intros n [Hn _]%list_elem_of_filter.
Qed.

(** X4: creating a note whose id is new to the active collection and then
    deleting that id gives back the active collection as it was. *)
Theorem createNote_then_deleteNote
    (noteData : NoteStore.CreateNoteRequest)
    (response : NoteStore.Envelope NoteStore.Note) (w : NoteStore.World) :
  (∀ n, n ∈ NoteStore.notes (NoteStore.store w) →
        NoteStore.id n ≠ NoteStore.id (NoteStore.unwrap response)) →
  let created := NoteStore.createNote noteData (Resolved response) w in
  created.2 = Returned (NoteStore.unwrap response)
  ∧ NoteStore.notes (NoteStore.store created.1)
    = NoteStore.unwrap response :: NoteStore.notes (NoteStore.store w)
  ∧ NoteStore.notes
      (NoteStore.store
         (NoteStore.deleteNote (NoteStore.id (NoteStore.unwrap response))
            (Resolved tt) created.1).1)
    = NoteStore.notes (NoteStore.store w).
Proof.
  intros Hfresh. simpl. split; [done|]. split; [done|].
  rewrite filter_cons, decide_False by (intros Hne; by apply Hne).
  by apply filter_keeps_all.
Qed.

Lemma createNote_then_deleteNote_witness :
  NoteStore.notes
    (NoteStore.store
       (NoteStore.deleteNote "d" (Resolved tt)
          (NoteStore.createNote sample_create
             (Resolved (NoteStore.Enveloped (sample_note "d" "D" false)))
             two_notes_second_open).1).1)
  = NoteStore.notes (NoteStore.store two_notes_second_open).
Proof.
  apply (createNote_then_deleteNote sample_create
           (NoteStore.Enveloped (sample_note "d" "D" false))
           two_notes_second_open).
  intros n Hn. simpl in Hn.
  apply elem_of_cons in Hn as [->|Hn]; [by vm_compute|].
  apply elem_of_cons in Hn as [->|Hn]; [by vm_compute|].
  by apply elem_of_nil in Hn.
Defined.

(** X5: a successful [updateNote] for an id that no listed note has does
    not add the returned note: the active collection is unchanged. *)
Theorem updateNote_unlisted_id
    (i : string) (noteData : NoteStore.UpdateNoteRequest)
    (response : NoteStore.Envelope NoteStore.Note) (w : NoteStore.World) :
  (∀ n, n ∈ NoteStore.notes (NoteStore.store w) → NoteStore.id n ≠ i) →
  NoteStore.notes
    (NoteStore.store (NoteStore.updateNote i noteData (Resolved response) w).1)
  = NoteStore.notes (NoteStore.store w).
Proof.
  intros Hnone. simpl. apply fmap_keeps_all.
  intros n Hn. rewrite decide_False; [done | by apply Hnone].
Qed.

Lemma updateNote_unlisted_id_witness :
  NoteStore.notes
    (NoteStore.store
       (NoteStore.updateNote "z" sample_update
          (Resolved (NoteStore.Enveloped (sample_note "z" "Z" false)))
          two_notes_second_open).1)
  = NoteStore.notes (NoteStore.store two_notes_second_open).
Proof.
  apply (updateNote_unlisted_id "z" sample_update
           (NoteStore.Enveloped (sample_note "z" "Z" false))
           two_notes_second_open).
  intros n Hn. simpl in Hn.
  apply elem_of_cons in Hn as [->|Hn]; [by vm_compute|].
  apply elem_of_cons in Hn as [->|Hn]; [by vm_compute|].
  by apply elem_of_nil in Hn.
Defined.

(** X6: only the two listing fetches can bring one id into both
    collections: any other operation keeps the active and the trash
    collection disjoint by id, provided an updated or restored note
    carries the id that was asked for and a created note an id that is not
    in the trash. *)
Theorem disjointness_kept_between_fetches
    (a : NoteStore.Action) (w : NoteStore.World) :
  NoteRuns.replaces_listing a = false →
  NoteRuns.answers_request a w →
  NoteStore.disjoint_by_id (NoteStore.store w) →
  NoteStore.disjoint_by_id (NoteStore.store (NoteStore.perform a w)).
Proof.
  unfold NoteStore.disjoint_by_id.
  destruct a as [o | o | i [r|e'] | d [r|e'] | i d [r|e']
                | i [r|e'] | i [r|e'] | ]; simpl; intros Hl Ha Hdis;
    try done.
  - intros x y [->|Hx]%elem_of_cons Hy; [by apply Ha | by apply Hdis].
  - intros x y (m & -> & Hm)%list_elem_of_fmap Hy.
    destruct (decide (NoteStore.id m = i)) as [Hmi|Hmi]; [|by apply Hdis].
    rewrite Ha, <- Hmi. by apply Hdis.
  - intros x y [_ Hx]%list_elem_of_filter Hy. by apply Hdis.
  - intros x y [->|Hx]%elem_of_cons [Hne Hy]%list_elem_of_filter.
    + rewrite Ha. by intros Heq.
    + by apply Hdis.
Qed.

Lemma disjointness_kept_between_fetches_witness :
  NoteStore.disjoint_by_id
    (NoteStore.store
       (NoteStore.perform
          (NoteStore.RestoreNote "c"
             (Resolved (NoteStore.Enveloped (sample_note "c" "C" false))))
          one_listed_one_trashed)).
Proof.
  apply (disjointness_kept_between_fetches
           (NoteStore.RestoreNote "c"
              (Resolved (NoteStore.Enveloped (sample_note "c" "C" false))))
           one_listed_one_trashed); [reflexivity | reflexivity |].
  intros x y Hx Hy. simpl in Hx, Hy.
  apply list_elem_of_singleton in Hx as ->.
  apply list_elem_of_singleton in Hy as ->.
  by vm_compute.
Defined.

(** ** The session store: persistence, failure, the credential *)

Section SessionMore.
Import Session.
Variable JSON_stringify : User → string.
Variable JSON_parse : string → ParseResult.


Lemma perform_token_persisted (a : Action) (w : World) :
  SessionRuns.token_persisted w →
  SessionRuns.token_persisted (perform JSON_stringify a w).1.
Proof.
  unfold SessionRuns.token_persisted.
  destruct a as [c [r|e] | d [r|e] | | d [u|e] | d [r|e] | ]; simpl;
    intros H; try done.
  - rewrite lookup_insert_ne by done. by rewrite lookup_insert_eq.
  - rewrite lookup_insert_ne by done. by rewrite lookup_insert_eq.
  - rewrite lookup_delete_ne by done. by rewrite lookup_delete_eq.
  - by rewrite lookup_insert_ne.
Qed.

Lemma run_token_persisted (acts : list Action) (w : World) :
  SessionRuns.token_persisted w →
  SessionRuns.token_persisted (run JSON_stringify acts w).
Proof.
  revert w. induction acts as [|a acts IH]; intros w Hw; simpl; [done|].
  apply IH. by apply perform_token_persisted.
Qed.

Lemma boot_token_persisted ls st :
  create JSON_parse ls = Some st →
  SessionRuns.token_persisted (boot st ls).
Proof.
  unfold create, getInitialState, SessionRuns.token_persisted.
  destruct (if Js.truthy_str (ls !! "user") then _ else _); [done|].
  by intros [= <-].
Qed.

End SessionMore.



(** X8: after [logout] nothing of the session survives a reload: whatever
    the state and whatever [JSON.parse] would do, constructing the store
    anew from the [localStorage] that [logout] leaves gives the anonymous
    state, and never throws. *)
Theorem logout_survives_reload
    (JSON_parse : string → Session.ParseResult) (w : Session.World) :
  Session.create JSON_parse (Session.localStorage (Session.logout w).1)
  = Some (Session.mkAuthState None None false None false).
Proof.
  unfold Session.create, Session.getInitialState. simpl.
  rewrite lookup_delete_eq.
  rewrite lookup_delete_ne by done. by rewrite lookup_delete_eq.
Qed.

(** X9: in every state reached from hydration by any run of store
    operations the credential held in memory is the credential held in
    [localStorage] (both absent, or the same string). *)
Theorem credential_matches_storage
    (JSON_stringify : Session.User → string)
    (JSON_parse : string → Session.ParseResult)
    (ls : gmap string string) (st : Session.AuthState)
    (acts : list Session.Action) :
  Session.create JSON_parse ls = Some st →
  let w := Session.run JSON_stringify acts (Session.boot st ls) in
  Session.token (Session.auth w) = Session.localStorage w !! "token".
Proof.
  intros Hcreate. apply run_token_persisted.
  by eapply boot_token_persisted.
Qed.

Lemma credential_matches_storage_witness :
  Session.token
    (Session.auth (Session.run sample_stringify sample_run
                     (Session.boot sample_hydrated sample_storage)))
  = Session.localStorage
      (Session.run sample_stringify sample_run
         (Session.boot sample_hydrated sample_storage)) !! "token".
Proof.
  exact (credential_matches_storage sample_stringify sample_parse
           sample_storage sample_hydrated sample_run eq_refl).
Defined.

(** X10: the request interceptor sends the store's own credential: in
    every state reached from hydration, the next request carries
    [Bearer <token>] when the store holds a non-empty token and is left
    without a new authorization header otherwise; no other header is
    touched. *)
Theorem request_carries_store_credential
    (JSON_stringify : Session.User → string)
    (JSON_parse : string → Session.ParseResult)
    (ls : gmap string string) (st : Session.AuthState)
    (acts : list Session.Action) (headers : gmap string string) :
  Session.create JSON_parse ls = Some st →
  let w := Session.run JSON_stringify acts (Session.boot st ls) in
  let out := Requests.request_interceptor (Session.localStorage w) headers in
  out !! "Authorization"
  = (if Js.truthy_str (Session.token (Session.auth w))
     then Some ("Bearer " +:+ default "" (Session.token (Session.auth w)))
     else headers !! "Authorization")
  ∧ ∀ k, k ≠ "Authorization" → out !! k = headers !! k.
Proof.
  intros Hcreate. simpl.
  pose proof (run_token_persisted JSON_stringify acts _
                (boot_token_persisted JSON_parse ls st Hcreate)) as Htok.
  unfold SessionRuns.token_persisted in Htok. rewrite Htok.
  unfold Requests.request_interceptor.
  destruct (Js.truthy_str _); split; try done.
  - by rewrite lookup_insert_eq.
  - intros k Hk. by rewrite lookup_insert_ne.
Qed.

Lemma request_carries_store_credential_witness :
  Requests.request_interceptor
    (Session.localStorage
       (Session.run sample_stringify sample_run
          (Session.boot sample_hydrated sample_storage)))
    {[ "Content-Type" := "application/json" ]} !! "Authorization"
  = Some "Bearer def".
Proof.
  exact (proj1 (request_carries_store_credential sample_stringify
                  sample_parse sample_storage sample_hydrated sample_run
                  {[ "Content-Type" := "application/json" ]} eq_refl)).
Defined.

(** X11: whichever operation of the session store is rejected, and
    whatever the state, the user, the credential, the authenticated flag
    and [localStorage] stay as they were, the pending flag is cleared, a
    non-empty message is recorded, and the error that was caught is
    thrown to the caller. *)
Theorem session_operation_failure
    (JSON_stringify : Session.User → string)
    (a : Session.Action) (w : Session.World) (e : Error) :
  SessionRuns.rejection a = Some e →
  let out := Session.perform JSON_stringify a w in
  Session.user (Session.auth out.1) = Session.user (Session.auth w)
  ∧ Session.token (Session.auth out.1) = Session.token (Session.auth w)
  ∧ Session.isAuthenticated (Session.auth out.1)
    = Session.isAuthenticated (Session.auth w)
  ∧ Session.localStorage out.1 = Session.localStorage w
  ∧ Session.loading (Session.auth out.1) = false
  ∧ (∃ m, Session.error (Session.auth out.1) = Some m ∧ m ≠ "")
  ∧ out.2 = Thrown e.
Proof.
  destruct a as [c [r|e'] | d [r|e'] | | d [u|e'] | d [r|e'] | ]; simpl;
    intros [= ->]; repeat split; try done;
    (eexists; split; [done|]; by apply or_default_nonempty).
Qed.

Lemma session_operation_failure_witness :
  Session.auth
    (Session.perform sample_stringify
       (Session.UpdatePassword (Session.mkPasswordUpdate "old" "New1!new")
          (Rejected (mkError "")))
       (Session.boot sample_hydrated sample_storage)).1
  = Session.mkAuthState (Some alice) (Some "abc") false
      (Some "Password update failed") true
  ∧ (Session.perform sample_stringify
       (Session.UpdatePassword (Session.mkPasswordUpdate "old" "New1!new")
          (Rejected (mkError "")))
       (Session.boot sample_hydrated sample_storage)).2
    = Thrown (mkError "").
Proof.
  split; [reflexivity|].
  exact (proj2 (proj2 (proj2 (proj2 (proj2 (proj2
    (session_operation_failure sample_stringify
       (Session.UpdatePassword (Session.mkPasswordUpdate "old" "New1!new")
          (Rejected (mkError "")))
       (Session.boot sample_hydrated sample_storage)
       (mkError "") eq_refl))))))).
Defined.

(** X12: the profile and password operations never touch the
    credential: whether they succeed or fail, [updateProfile] and
    [updatePassword] leave the token, the authenticated flag and the
    persisted token as they were, and [updatePassword] also leaves the
    user and the whole of [localStorage]. *)
Theorem profile_operations_keep_credential
    (JSON_stringify : Session.User → string)
    (profile : Session.ProfileUpdate) (o1 : Outcome Session.User)
    (password : Session.PasswordUpdate) (o2 : Outcome unit)
    (w : Session.World) :
  let p := (Session.updateProfile JSON_stringify profile o1 w).1 in
  let q := (Session.updatePassword password o2 w).1 in
  (Session.token (Session.auth p) = Session.token (Session.auth w)
   ∧ Session.isAuthenticated (Session.auth p)
     = Session.isAuthenticated (Session.auth w)
   ∧ Session.localStorage p !! "token" = Session.localStorage w !! "token")
  ∧ (Session.token (Session.auth q) = Session.token (Session.auth w)
     ∧ Session.isAuthenticated (Session.auth q)
       = Session.isAuthenticated (Session.auth w)
     ∧ Session.user (Session.auth q) = Session.user (Session.auth w)
     ∧ Session.localStorage q = Session.localStorage w).
Proof.
  destruct o1 as [u|e1], o2 as [r|e2]; simpl; repeat split;
    by rewrite ?lookup_insert_ne.
Qed.

Section SessionOverlap.
Import Session SessionRuns.
Variable JSON_stringify : User → string.

Lemma session_perform_start_settle (a : Action) (w : World) :
  (perform JSON_stringify a w).1 = settle JSON_stringify a (start a w).
Proof. by destruct a as [c [r|e] | d [r|e] | | d [u|e] | d [r|e] | ]. Qed.

Lemma session_interleave_sequential (acts : list Action) (w : World) :
  interleave JSON_stringify (sequential acts) w = run JSON_stringify acts w.
Proof.
  revert w. induction acts as [|a acts IH]; intros w; [done|].
  unfold interleave, sequential in *. simpl.
  rewrite IH. by rewrite session_perform_start_settle.
Qed.

Lemma start_pending (a : Action) (w : World) :
  request_of a ≠ None → loading (auth (start a w)) = true.
Proof. by destruct a. Qed.

Lemma step_complete (s : Step) (w : World) :
  identity_complete (auth w) →
  identity_complete (auth (step JSON_stringify w s)).
Proof.
  unfold identity_complete. intros H.
  destruct s as [a|a].
  - by destruct a.
  - destruct a as [c [r|e] | d [r|e] | | d [u|e] | d [r|e] | ]; simpl;
      try done; try (intros _; split; by eexists).
    intros Hauth. destruct (H Hauth) as [_ Ht]. split; [by eexists | done].
Qed.

Lemma interleave_complete (steps : list Step) (w : World) :
  identity_complete (auth w) →
  identity_complete (auth (interleave JSON_stringify steps w)).
Proof.
  unfold interleave. revert w.
  induction steps as [|s steps IH]; intros w Hw; simpl; [done|].
  apply IH. by apply step_complete.
Qed.

End SessionOverlap.

(** X13: the route guard shows protected content only to a complete
    session.  In every state reached from hydration by any schedule of
    starts and settlements of session operations: when [ProtectedRoute]
    renders its children the pending flag is off, the store is
    authenticated and both the user and the credential are present;
    whenever the pending flag is on - as it is right after any operation
    that awaits the gateway has started, signed in or not - it shows the
    spinner; and with the flag off and the store not authenticated it
    navigates to the login page with the current location. *)
Theorem protected_content_needs_identity
    (JSON_stringify : Session.User → string)
    (JSON_parse : string → Session.ParseResult)
    (ls : gmap string string) (st : Session.AuthState)
    (steps : list SessionRuns.Step) (a : Session.Action)
    (location : string) :
  Session.create JSON_parse ls = Some st →
  let w := SessionRuns.interleave JSON_stringify steps (Session.boot st ls) in
  let s := Session.auth w in
  (Routing.ProtectedRoute s location = Routing.Children →
   Session.loading s = false
   ∧ Session.isAuthenticated s = true
   ∧ is_Some (Session.user s) ∧ is_Some (Session.token s))
  ∧ (Session.loading s = true →
     Routing.ProtectedRoute s location = Routing.Spinner)
  ∧ (SessionRuns.request_of a ≠ None →
     Session.loading (Session.auth (SessionRuns.start a w)) = true
     ∧ Routing.ProtectedRoute (Session.auth (SessionRuns.start a w)) location
       = Routing.Spinner)
  ∧ (Session.loading s = false → Session.isAuthenticated s = false →
     Routing.ProtectedRoute s location = Routing.NavigateToLogin location).
Proof.
  intros Hcreate. simpl.
  pose proof (interleave_complete JSON_stringify steps (Session.boot st ls)
                (create_complete JSON_parse ls st Hcreate)) as Hinv.
  unfold Session.identity_complete in Hinv.
  split; [|split; [|split]].
  - unfold Routing.ProtectedRoute.
    destruct (Session.loading _) eqn:Hl, (Session.isAuthenticated _) eqn:Ha;
      simpl; try done.
    intros _. split; [done|]. split; [done|]. by apply Hinv.
  - unfold Routing.ProtectedRoute. by intros ->.
  - intros Hreq.
    pose proof (start_pending a
                  (SessionRuns.interleave JSON_stringify steps
                     (Session.boot st ls)) Hreq) as Hp.
    split; [exact Hp|]. unfold Routing.ProtectedRoute. by rewrite Hp.
  - unfold Routing.ProtectedRoute. by intros -> ->.
Qed.

Lemma protected_content_needs_identity_witness :
  Routing.ProtectedRoute
    (Session.auth
       (SessionRuns.interleave sample_stringify
          (SessionRuns.sequential sample_run) 
          (Session.boot sample_hydrated sample_storage)))
    "/notes"
  = Routing.Children
  ∧ is_Some (Session.token
      (Session.auth
         (SessionRuns.interleave sample_stringify
            (SessionRuns.sequential sample_run)
            (Session.boot sample_hydrated sample_storage))))
  ∧ Routing.ProtectedRoute
      (Session.auth
         (SessionRuns.interleave sample_stringify
            (SessionRuns.sequential sample_run
             ++ [SessionRuns.Begin sample_password_update])
            (Session.boot sample_hydrated sample_storage)))
      "/notes"
    = Routing.Spinner.
Proof.
  pose proof (protected_content_needs_identity sample_stringify sample_parse
                sample_storage sample_hydrated
                (SessionRuns.sequential sample_run) sample_password_update
                "/notes" eq_refl) as (Hchildren & _ & Hstart & _).
  split; [reflexivity|].
  split; [exact (proj2 (proj2 (proj2 (Hchildren eq_refl))))|].
  exact (proj2 (Hstart ltac:(done))).
Defined.

(** ** The gateway and the stores together *)

(** X14: the message of the backend reaches the user unchanged: when the
    error body is an object whose [message] is a non-empty string, the
    interceptor throws an error with exactly that message, whatever the
    transport description and the status text, and a [login] or a
    [fetchNotes] rejected with it records that very message. *)
Theorem backend_message_reaches_store
    (JSON_stringify ToString : Js.value → string)
    (stringify_user : Session.User → string)
    (fields : list (string * Js.value)) (m : string)
    (status transport : option string)
    (credentials : Session.LoginCredentials)
    (sw : Session.World) (nw : NoteStore.World) :
  Js.assoc "message" fields = Js.Str m →
  m ≠ "" →
  let thrown_error :=
    Gateway.on_rejected JSON_stringify ToString
      (Gateway.mkAxiosError
         (Some (Gateway.mkResponse (Js.Obj fields) status)) transport) in
  thrown_error = mkError m
  ∧ Session.error
      (Session.auth
         (Session.login stringify_user credentials (Rejected thrown_error)
            sw).1)
    = Some m
  ∧ NoteStore.error
      (NoteStore.store (NoteStore.fetchNotes (Rejected thrown_error) nw).1)
    = Some m.
Proof.
  intros Hfield Hm.
  assert (Htruthy : Js.truthy (Js.Str m) = true).
  { simpl. destruct (String.eqb m "") eqn:E; [|done].
    by apply String.eqb_eq in E. }
  assert (Hdefault : or_default m "Login failed" = m
                     ∧ or_default m "& Failed to fetch notes" = m).
  { unfold or_default. destruct (String.eqb m "") eqn:E; [|done].
    by apply String.eqb_eq in E. }
  unfold Gateway.on_rejected. simpl. rewrite Hfield, Htruthy. simpl.
  destruct Hdefault as [-> ->]. done.
Qed.

Lemma backend_message_reaches_store_witness :
  Gateway.on_rejected (λ _, "{}") (λ _, "") invalid_credentials_error
  = mkError "Invalid credentials"
  ∧ Session.error
      (Session.auth
         (Session.login sample_stringify sample_credentials
            (Rejected (Gateway.on_rejected (λ _, "{}") (λ _, "")
                         invalid_credentials_error))
            anonymous_world).1)
    = Some "Invalid credentials".
Proof.
  pose proof (backend_message_reaches_store (λ _, "{}") (λ _, "")
                sample_stringify [("message", Js.Str "Invalid credentials")]
                "Invalid credentials" (Some "Unauthorized")
                (Some "Request failed with status code 401")
                sample_credentials anonymous_world NoteStore.initial
                eq_refl ltac:(by vm_compute)) as (Hthrown & Hlogin & _).
  split; [exact Hthrown | exact Hlogin].
Defined.

(** X15: the interceptor never throws an error with an empty message,
    provided the [message] field of the body, when it counts (is truthy),
    is a string, and given that [JSON.stringify] of an object is never
    the empty text. *)
Theorem normalized_message_nonempty
    (JSON_stringify ToString : Js.value → string)
    (error : Gateway.AxiosError) :
  (∀ v, Js.typeof v = Js.TObject → Js.truthy v = true →
        JSON_stringify v ≠ "") →
  (Js.truthy (Js.get (Gateway.response_data error) "message") = true →
   ∃ m, Js.get (Gateway.response_data error) "message" = Js.Str m) →
  err_message (Gateway.on_rejected JSON_stringify ToString error) ≠ "".
Proof.
  intros Hstr Hmsg. unfold Gateway.on_rejected. simpl.
  destruct (Js.truthy (Gateway.response_data error)) eqn:Hd.
  - destruct (bool_decide
                (Js.typeof (Gateway.response_data error) = Js.TObject))
      eqn:Ho.
    + apply bool_decide_eq_true in Ho.
      destruct (Js.truthy (Js.get (Gateway.response_data error) "message"))
        eqn:Hm; simpl.
      * destruct (Hmsg eq_refl) as [m Hget]. rewrite Hget in Hm |- *.
        simpl in *. intros ->. by simpl in Hm.
      * rewrite Ho. simpl. by apply Hstr.
    + simpl.
      destruct (bool_decide
                  (Js.typeof (Gateway.response_data error) = Js.TString))
        eqn:Hs; [|done].
      apply bool_decide_eq_true in Hs.
      destruct (Gateway.response_data error); try done.
      simpl in *. intros ->. by simpl in Hd.
  - destruct (Js.truthy_str (Gateway.message error)) eqn:Hm.
    + by apply truthy_str_default.
    + destruct (Js.truthy_str (Gateway.response_statusText error)) eqn:Hs.
      * by apply truthy_str_default.
      * done.
Qed.

Lemma normalized_message_nonempty_witness :
  err_message (Gateway.on_rejected (λ _, "{}") (λ _, "") numeric_body_error)
  ≠ "".
Proof.
  apply (normalized_message_nonempty (λ _, "{}") (λ _, "")
           numeric_body_error).
  - intros v _ _. discriminate.
  - simpl. discriminate.
Defined.

(** ** The shape of the plain text and of the synopsis *)

Section ShapeFacts.
Import Markdown Shape.

Lemma replace_from_skip (m : matcher) (s : jsstring) (k : nat) :
  replace_from m k s = replace_all m (drop k s).
Proof.
  revert k. induction s as [|c rest IH]; intros k.
  - by rewrite drop_nil.
  - destruct k as [|k]; [done|]. simpl. apply IH.
Qed.

Lemma drop_count_while p (s : jsstring) :
  drop (count_while p s) s = drop_while p s.
Proof.
  induction s as [|c rest IH]; [done|]. simpl.
  destruct (p c); [apply IH | done].
Qed.

Lemma drop_while_head p (s : jsstring) c :
  head (drop_while p s) = Some c → p c = false.
Proof.
  induction s as [|x rest IH]; [done|]. simpl.
  destruct (p x) eqn:E; [apply IH|]. simpl. by intros [= <-].
Qed.

Lemma drop_while_suffix p (s : jsstring) :
  ∃ k, s = k ++ drop_while p s.
Proof.
  induction s as [|x rest [k Hk]]; [by exists []|]. simpl.
  destruct (p x); [|by exists []].
  exists (x :: k). simpl. by rewrite <- Hk.
Qed.

Lemma drop_while_keeps p (s : jsstring) :
  (∀ c, head s = Some c → p c = false) → drop_while p s = s.
Proof.
  destruct s as [|x rest]; [done|]. intros H. simpl.
  by rewrite (H x eq_refl).
Qed.

Lemma Forall_drop_while (P : N → Prop) p (s : jsstring) :
  Forall P s → Forall P (drop_while p s).
Proof.
  destruct (drop_while_suffix p s) as [k Hk].
  intros H. rewrite Hk in H. by apply Forall_app in H as [_ H].
Qed.

Lemma trim_prefix (s : jsstring) :
  trim s `prefix_of` drop_while is_space s.
Proof.
  unfold trim.
  destruct (drop_while_suffix is_space (reverse (drop_while is_space s)))
    as [k Hk].
  exists (reverse k).
  rewrite <- reverse_app, <- Hk. by rewrite reverse_involutive.
Qed.

Lemma Forall_trim (P : N → Prop) (s : jsstring) :
  Forall P s → Forall P (trim s).
Proof.
  intros H. unfold trim.
  apply Forall_reverse, Forall_drop_while, Forall_reverse.
  by apply Forall_drop_while.
Qed.

Lemma trim_trimmed (s : jsstring) : trimmed (trim s).
Proof.
  split; intros c Hc.
  - destruct (trim_prefix s) as [k Hk].
    apply (drop_while_head is_space s). rewrite Hk.
    by destruct (trim s).
  - unfold trim in Hc. rewrite last_reverse in Hc.
    by apply drop_while_head in Hc.
Qed.

Lemma collapse_space c (rest : jsstring) :
  is_space c = true →
  replace_all (match_run is_space) (c :: rest)
  = SPACE :: replace_all (match_run is_space) (drop_while is_space rest).
Proof.
  intros Hc. unfold replace_all at 1. simpl.
  unfold match_run. simpl. rewrite Hc. simpl.
  by rewrite replace_from_skip, drop_count_while.
Qed.

Lemma collapse_other c (rest : jsstring) :
  is_space c = false →
  replace_all (match_run is_space) (c :: rest)
  = c :: replace_all (match_run is_space) rest.
Proof.
  intros Hc. unfold replace_all. simpl.
  unfold match_run. simpl. by rewrite Hc.
Qed.

Lemma collapse_collapsed (n : nat) (s : jsstring) :
  length s ≤ n →
  collapsed (replace_all (match_run is_space) s) = true.
Proof.
  revert s. induction n as [|n IH]; intros s Hlen.
  - by destruct s; [|simpl in Hlen; lia].
  - destruct s as [|c rest]; [done|]. simpl in Hlen.
    destruct (is_space c) eqn:Hc.
    + rewrite collapse_space by done. simpl.
      pose proof (drop_while_length is_space rest) as Hd.
      rewrite IH by lia. rewrite andb_true_r.
      destruct (drop_while is_space rest) as [|x d] eqn:E; [done|].
      assert (Hx : is_space x = false).
      { apply (drop_while_head is_space rest). by rewrite E. }
      rewrite collapse_other by done. simpl. by rewrite Hx.
    + rewrite collapse_other by done. simpl. rewrite Hc. simpl.
      apply IH. lia.
Qed.

Lemma collapsed_tail c (l : jsstring) :
  collapsed (c :: l) = true → collapsed l = true.
Proof. simpl. by intros [_ H]%andb_prop. Qed.

Lemma collapsed_drop_while p (l : jsstring) :
  collapsed l = true → collapsed (drop_while p l) = true.
Proof.
  induction l as [|c rest IH]; [done|]. intros H. simpl.
  destruct (p c); [|done]. apply IH. by eapply collapsed_tail.
Qed.

Lemma collapsed_prefix (l1 l2 : jsstring) :
  l1 `prefix_of` l2 → collapsed l2 = true → collapsed l1 = true.
Proof.
  revert l2. induction l1 as [|c l1 IH]; intros l2 [k ->] H; [done|].
  simpl in *. apply andb_prop in H as [Hc Hrest].
  rewrite (IH (l1 ++ k)) by (done || by exists k). rewrite andb_true_r.
  destruct (is_space c); [|done].
  apply andb_prop in Hc as [Heq Hnext]. rewrite Heq. simpl.
  by destruct l1.
Qed.

Lemma collapsed_single_spaced (l : jsstring) :
  collapsed l = true → single_spaced l.
Proof.
  induction l as [|c rest IH]; intros H.
  - split; [by intros c Hc%elem_of_nil | done].
  - pose proof H as Hall. simpl in H. apply andb_prop in H as [Hc Hrest].
    destruct (IH Hrest) as [Hunit Hadj]. split.
    + intros x [->|Hx]%elem_of_cons Hsp; [|by apply Hunit].
      rewrite Hsp in Hc. apply andb_prop in Hc as [Heq _].
      by apply N.eqb_eq in Heq.
    + intros [|i] Hi; [|by apply Hadj].
      simpl in Hi. injection Hi as ->.
      change (is_space SPACE) with true in Hc.
      apply andb_prop in Hc as [_ Hnext].
      destruct rest as [|d rest']; [done|]. simpl in *.
      intros [= ->]. by vm_compute in Hnext.
Qed.

(** The last replacement and [trim] leave a collapsed text. *)
Lemma plain_text_collapsed (markdown : jsstring) :
  collapsed (plain_text markdown) = true.
Proof.
  unfold plain_text.
  eapply collapsed_prefix; [apply trim_prefix|].
  apply collapsed_drop_while.
  by eapply collapse_collapsed.
Qed.

Lemma replace_from_Forall (P : N → Prop) (m : matcher) :
  (∀ s n r, Forall P s → m s = Some (n, r) → Forall P r) →
  ∀ s k, Forall P s → Forall P (replace_from m k s).
Proof.
  intros Hm s. induction s as [|c rest IH]; intros k Hs; simpl; [done|].
  pose proof Hs as Hall. apply Forall_cons in Hs as [Hc Hrest].
  destruct k as [|k]; [|by apply IH].
  destruct (m (c :: rest)) as [[n r]|] eqn:E.
  - pose proof (Hm _ _ _ Hall E) as Hr.
    destruct n as [|n]; apply Forall_app; split; try done.
    + constructor; [done | by apply IH].
    + by apply IH.
  - constructor; [done | by apply IH].
Qed.

Lemma replace_symbol_clean (s : jsstring) (k : nat) :
  Forall (λ c, is_symbol c = false) (replace_from match_symbol k s).
Proof.
  revert k. induction s as [|c rest IH]; intros k; simpl; [done|].
  destruct k as [|k]; [|apply IH].
  destruct (is_symbol c) eqn:E; simpl; [apply IH|].
  constructor; [done | apply IH].
Qed.

Lemma plain_text_no_symbol (markdown : jsstring) :
  Forall (λ c, is_symbol c = false) (plain_text markdown).
Proof.
  unfold plain_text, replace_all.
  apply Forall_trim.
  apply replace_from_Forall.
  { intros s n r _. unfold match_run.
    destruct (count_while is_space s); intros [= <- <-].
    by repeat constructor. }
  apply replace_from_Forall.
  { intros s n r _. unfold match_run.
    destruct (count_while _ s); intros [= <- <-].
    by repeat constructor. }
  apply replace_from_Forall.
  { intros s n r _. unfold match_list_item. intros H.
    repeat case_match; simplify_eq. by repeat constructor. }
  apply replace_symbol_clean.
Qed.

Lemma plain_text_units (markdown : jsstring) :
  Forall plain_unit (plain_text markdown).
Proof.
  apply Forall_forall. intros c Hc. split.
  - pose proof (plain_text_no_symbol markdown) as H.
    by eapply Forall_forall in H.
  - by apply (collapsed_single_spaced _ (plain_text_collapsed markdown)).
Qed.

Lemma substring_from_start (p : jsstring) (b : Z) :
  substring p 0 b = take (Z.to_nat b) p.
Proof. unfold substring. simpl. by rewrite drop_0. Qed.

Lemma kept_prefix (p : jsstring) (n : nat) :
  trimmed p → trim (take n p) `prefix_of` p.
Proof.
  intros [Hhead _].
  etrans; [apply trim_prefix|].
  rewrite drop_while_keeps; [apply prefix_take|].
  intros c Hc. apply Hhead.
  destruct n, p; simpl in *; done.
Qed.

End ShapeFacts.

(** C9, as stated, fails for a negative [maxLength]: the plain text of
    "abc" is longer than -1, yet the output is the three units of "...",
    more than -1 + 3. *)
Lemma extractSynopsis_negative_counterexample :
  (-1 < Z.of_nat (length (Markdown.plain_text (Markdown.js "abc"))))%Z
  ∧ Markdown.extractSynopsis (Markdown.js "abc") (-1) = Markdown.js "..."
  ∧ ¬ (Z.of_nat (length (Markdown.extractSynopsis (Markdown.js "abc") (-1)))
       ≤ -1 + 3)%Z.
Proof.
  split; [by vm_compute|]. split; [by vm_compute|].
  vm_compute. intros H. by apply H.
Qed.

(** C9 (amended): for a [maxLength] that is not negative, whether to
    truncate is decided on the length of the derived plain text, not of
    the raw markdown.  A plain text longer than [maxLength] is cut at the
    break point (the last space at most [maxLength] and beyond four fifths
    of it, else [maxLength]) and trimmed; what is kept is a prefix of the
    plain text of at most [maxLength] units, and the literal three units
    of "..." are appended to it, so the output has three units more than
    what is kept and at most [maxLength + 3].  A plain text that fits is
    returned as it is, however long the markdown was. *)
Theorem extractSynopsis_decides_on_plain_text
    (markdown : Markdown.jsstring) (maxLength : Z) :
  (0 ≤ maxLength)%Z →
  ((maxLength < Z.of_nat (length (Markdown.plain_text markdown)))%Z →
   ∃ (b : Z) (kept : Markdown.jsstring),
     Markdown.chosen_break (Markdown.plain_text markdown) maxLength b
     ∧ kept = Markdown.trim
                (Markdown.substring (Markdown.plain_text markdown) 0 b)
     ∧ Markdown.extractSynopsis markdown maxLength = kept ++ Markdown.js "..."
     ∧ kept `prefix_of` Markdown.plain_text markdown
     ∧ (Z.of_nat (length kept) ≤ maxLength)%Z
     ∧ length (Markdown.extractSynopsis markdown maxLength) = length kept + 3
     ∧ (Z.of_nat (length (Markdown.extractSynopsis markdown maxLength))
        ≤ maxLength + 3)%Z)
  ∧ ((Z.of_nat (length (Markdown.plain_text markdown)) ≤ maxLength)%Z →
     Markdown.extractSynopsis markdown maxLength
     = Markdown.plain_text markdown).
Proof.
  intros HM. rewrite extractSynopsis_unfold by done. split.
  - intros Hlong.
    destruct (maxLength <? _)%Z eqn:E; [|apply Z.ltb_ge in E; lia].
    pose proof (truncated_length (Markdown.plain_text markdown) maxLength HM)
      as Hkept.
    exists (Markdown.break_point (Markdown.plain_text markdown) maxLength).
    eexists. split; [by apply break_point_chosen|].
    split; [reflexivity|]. split; [done|]. split; [|split; [done|]].
    + rewrite substring_from_start. apply kept_prefix, trim_trimmed.
    + rewrite length_app. change (length Markdown.ellipsis) with 3.
      split; [done | lia].
  - intros Hfits.
    destruct (maxLength <? _)%Z eqn:E; [|done].
    apply Z.ltb_lt in E. lia.
Qed.

Lemma extractSynopsis_decides_on_plain_text_witness :
  (Markdown.extractSynopsis (Markdown.js "**one two** a bcd") 10
   = Markdown.js "one two a..."
   ∧ ∃ (b : Z) (kept : Markdown.jsstring),
       Markdown.chosen_break
         (Markdown.plain_text (Markdown.js "**one two** a bcd")) 10 b
       ∧ kept = Markdown.trim
                  (Markdown.substring
                     (Markdown.plain_text
                        (Markdown.js "**one two** a bcd")) 0 b)
       ∧ Markdown.extractSynopsis (Markdown.js "**one two** a bcd") 10
         = kept ++ Markdown.js "..."
       ∧ kept `prefix_of`
           Markdown.plain_text (Markdown.js "**one two** a bcd")
       ∧ (Z.of_nat (length kept) ≤ 10)%Z
       ∧ length (Markdown.extractSynopsis
                   (Markdown.js "**one two** a bcd") 10)
         = length kept + 3
       ∧ (Z.of_nat (length (Markdown.extractSynopsis
                              (Markdown.js "**one two** a bcd") 10))
          ≤ 10 + 3)%Z)
  ∧ Markdown.extractSynopsis (Markdown.js "**`code`** [a](b)") 3
    = Markdown.plain_text (Markdown.js "**`code`** [a](b)").
Proof.
  split; [split; [vm_compute; reflexivity|]|].
  - apply (proj1 (extractSynopsis_decides_on_plain_text
                    (Markdown.js "**one two** a bcd") 10 ltac:(lia))).
    vm_compute. reflexivity.
  - apply (proj2 (extractSynopsis_decides_on_plain_text
                    (Markdown.js "**`code`** [a](b)") 3 ltac:(lia))).
    vm_compute. discriminate.
Defined.

(** X16: the plain text derived from any markdown is whitespace-normal:
    its only white-space unit is the space (no line break, no tab), no
    two spaces are adjacent, and it neither begins nor ends with white
    space. *)
Theorem plain_text_whitespace_normal (markdown : Markdown.jsstring) :
  Shape.single_spaced (Markdown.plain_text markdown)
  ∧ Shape.trimmed (Markdown.plain_text markdown).
Proof.
  split.
  - apply collapsed_single_spaced, plain_text_collapsed.
  - apply trim_trimmed.
Qed.

(** X17: the plain text derived from any markdown contains none of the
    markup symbols the fifth replacement removes (the hash, the asterisk,
    the backtick, the underscore, the tilde, the greater-than sign and
    the bar): no later step brings one back. *)
Theorem plain_text_has_no_markup (markdown : Markdown.jsstring) :
  ∀ c, c ∈ Markdown.plain_text markdown → Markdown.is_symbol c = false.
Proof.
  intros c Hc. pose proof (plain_text_no_symbol markdown) as H.
  by eapply Forall_forall in H.
Qed.

Lemma plain_text_has_no_markup_witness :
  Markdown.plain_text (Markdown.js "# Hi") = Markdown.js "Hi"
  ∧ Markdown.is_symbol 72 = false.
Proof.
  split; [vm_compute; reflexivity|].
  apply (plain_text_has_no_markup (Markdown.js "# Hi") 72%N).
  vm_compute. left.
Defined.

(** X18: a truncated synopsis is a piece of the plain text followed by
    the ellipsis: for a [maxLength] that is not negative and a plain text
    longer than it, the output is [kept ++ "..."] where [kept] is a prefix
    of the plain text of at most [maxLength] units that does not end in
    white space. *)
Theorem synopsis_keeps_a_prefix
    (markdown : Markdown.jsstring) (maxLength : Z) :
  (0 ≤ maxLength)%Z →
  (maxLength < Z.of_nat (length (Markdown.plain_text markdown)))%Z →
  ∃ kept : Markdown.jsstring,
    Markdown.extractSynopsis markdown maxLength = kept ++ Markdown.ellipsis
    ∧ kept `prefix_of` Markdown.plain_text markdown
    ∧ (Z.of_nat (length kept) ≤ maxLength)%Z
    ∧ (∀ c, last kept = Some c → Markdown.is_space c = false).
Proof.
  intros HM Hlong. rewrite extractSynopsis_unfold by done.
  destruct (maxLength <? _)%Z eqn:E; [|apply Z.ltb_ge in E; lia].
  eexists. split; [done|]. split; [|split].
  - rewrite substring_from_start. apply kept_prefix, trim_trimmed.
  - by apply truncated_length.
  - apply trim_trimmed.
Qed.

Lemma synopsis_keeps_a_prefix_witness :
  ∃ kept : Markdown.jsstring,
    Markdown.extractSynopsis (Markdown.js "one **two** three four") 10
    = kept ++ Markdown.ellipsis
    ∧ kept `prefix_of`
        Markdown.plain_text (Markdown.js "one **two** three four")
    ∧ (Z.of_nat (length kept) ≤ 10)%Z
    ∧ (∀ c, last kept = Some c → Markdown.is_space c = false).
Proof.
  apply (synopsis_keeps_a_prefix (Markdown.js "one **two** three four") 10);
    [lia | vm_compute; reflexivity].
Defined.

(** X19: whatever the markdown and whatever [maxLength], the synopsis is
    free of markup symbols and its only white space is the space: no
    line break survives. *)
Theorem synopsis_is_plain
    (markdown : Markdown.jsstring) (maxLength : Z) :
  Forall Shape.plain_unit (Markdown.extractSynopsis markdown maxLength).
Proof.
  unfold Markdown.extractSynopsis.
  destruct markdown as [|c rest]; [done|].
  destruct (maxLength <? _)%Z; [|apply plain_text_units].
  apply Forall_app. split.
  - apply Forall_trim. unfold Markdown.substring.
    apply Forall_drop, Forall_take, plain_text_units.
  - repeat constructor; by vm_compute.
Qed.

(** X20: for a [maxLength] that is not negative the synopsis has at most
    three units more than the smaller of [maxLength] and the length of the
    markdown. *)
Theorem synopsis_length_bound
    (markdown : Markdown.jsstring) (maxLength : Z) :
  (0 ≤ maxLength)%Z →
  (Z.of_nat (length (Markdown.extractSynopsis markdown maxLength))
   ≤ Z.min maxLength (Z.of_nat (length markdown)) + 3)%Z.
Proof.
  intros HM. rewrite extractSynopsis_unfold by done.
  pose proof (plain_text_length markdown) as Hp.
  destruct (maxLength <? _)%Z eqn:E.
  - apply Z.ltb_lt in E. rewrite length_app.
    pose proof (truncated_length (Markdown.plain_text markdown) maxLength HM).
    change (length Markdown.ellipsis) with 3. lia.
  - apply Z.ltb_ge in E. lia.
Qed.

Lemma synopsis_length_bound_witness :
  (Z.of_nat (length (Markdown.extractSynopsis
                       (Markdown.js "one **two** three four") 10))
   ≤ 10 + 3)%Z.
Proof.
  exact (synopsis_length_bound (Markdown.js "one **two** three four") 10
           ltac:(lia)).
Defined.

(** ** Form validation *)

Section RegexFacts.
Import Markdown Regex.

Lemma matches_nil_nullable r s :
  matches r s → s = [] → nullable r = true.
Proof.
  induction 1 as [ | | r1 r2 s1 s2 _ IH1 _ IH2 | r1 r2 s' _ IH
                 | r1 r2 s' _ IH | | ]; intros Hs; simpl; try done.
  - apply app_eq_nil in Hs as [-> ->]. by rewrite IH1, IH2.
  - by rewrite IH.
  - rewrite IH by done. apply orb_true_r.
Qed.

Lemma nullable_matches r : nullable r = true ↔ matches r [].
Proof.
  split; [|by intros H; eapply matches_nil_nullable].
  induction r as [ | | p | r1 IH1 r2 IH2 | r1 IH1 r2 IH2 | r IH]; simpl;
    try done.
  - intros _. constructor.
  - intros [H1 H2]%andb_prop.
    change (@nil N) with (@nil N ++ []). constructor; auto.
  - intros [H|H]%orb_prop; [apply MAltL | apply MAltR]; auto.
  - intros _. constructor.
Qed.

Lemma matches_seq r1 r2 s :
  matches (Seq r1 r2) s
  ↔ ∃ s1 s2, s = s1 ++ s2 ∧ matches r1 s1 ∧ matches r2 s2.
Proof.
  split.
  - inversion 1; subst. by eexists _, _.
  - intros (s1 & s2 & -> & H1 & H2). by constructor.
Qed.

Lemma matches_class p s :
  matches (Class p) s ↔ ∃ c, s = [c] ∧ p c = true.
Proof.
  split.
  - inversion 1; subst. by eexists.
  - intros (c & -> & Hc). by constructor.
Qed.

Lemma matches_star_cons r c s :
  matches (Star r) (c :: s) →
  ∃ s1 s2, s = s1 ++ s2 ∧ matches r (c :: s1) ∧ matches (Star r) s2.
Proof.
  intros H. remember (Star r) as re eqn:Hre. remember (c :: s) as str eqn:Hstr.
  revert s Hstr.
  induction H as [ | | | | | | r' s1 s2 H1 _ H2 IH2]; intros t Ht;
    try done.
  injection Hre as ->.
  destruct s1 as [|x s1].
  - simpl in Ht. by apply IH2.
  - simpl in Ht. injection Ht as -> <-. by exists s1, s2.
Qed.

Lemma derive_matches c r s :
  matches (derive c r) s ↔ matches r (c :: s).
Proof.
  revert s.
  induction r as [ | | p | r1 IH1 r2 IH2 | r1 IH1 r2 IH2 | r IH];
    intros s; simpl.
  - split; inversion 1.
  - split; inversion 1.
  - rewrite matches_class. destruct (p c) eqn:Hp.
    + split.
      * inversion 1; subst. by exists c.
      * intros (x & [= -> ->] & _). constructor.
    + split; [inversion 1|].
      intros (x & [= -> ->] & Hx). congruence.
  - destruct (nullable r1) eqn:Hn.
    + split.
      * inversion 1 as [ | | | ? ? ? Hl | ? ? ? Hr | | ]; subst.
        -- apply matches_seq in Hl as (s1 & s2 & -> & H1 & H2).
           apply IH1 in H1.
           change (c :: s1 ++ s2) with ((c :: s1) ++ s2). by constructor.
        -- apply IH2 in Hr. apply nullable_matches in Hn.
           change (c :: s) with ([] ++ c :: s). by constructor.
      * intros (s1 & s2 & Hs & H1 & H2)%matches_seq.
        destruct s1 as [|x s1]; simpl in Hs.
        -- subst s2. apply MAltR. by apply IH2.
        -- injection Hs as <- ->. apply MAltL. apply matches_seq.
           exists s1, s2. split; [done|]. split; [by apply IH1 | done].
    + rewrite !matches_seq. split.
      * intros (s1 & s2 & -> & H1 & H2). apply IH1 in H1.
        by exists (c :: s1), s2.
      * intros (s1 & s2 & Hs & H1 & H2).
        destruct s1 as [|x s1]; simpl in Hs.
        -- apply nullable_matches in H1. congruence.
        -- injection Hs as <- ->. exists s1, s2.
           split; [done|]. split; [by apply IH1 | done].
  - split.
    + inversion 1; subst; [apply MAltL; by apply IH1
                          | apply MAltR; by apply IH2].
    + inversion 1; subst; [apply MAltL; by apply IH1
                          | apply MAltR; by apply IH2].
  - rewrite matches_seq. split.
    + intros (s1 & s2 & -> & H1 & H2). apply IH in H1.
      change (c :: s1 ++ s2) with ((c :: s1) ++ s2). by constructor.
    + intros (s1 & s2 & -> & H1 & H2)%matches_star_cons.
      exists s1, s2. split; [done|]. split; [by apply IH | done].
Qed.

(** The matcher decides the language. *)
Lemma accepts_matches r s : accepts r s = true ↔ matches r s.
Proof.
  revert r. induction s as [|c s IH]; intros r; simpl.
  - apply nullable_matches.
  - rewrite IH. apply derive_matches.
Qed.

Lemma matches_star_class p s :
  matches (Star (Class p)) s ↔ all_in p s.
Proof.
  unfold all_in. split.
  - intros H. remember (Star (Class p)) as re eqn:Hre.
    induction H as [ | | | | | | r' s1 s2 H1 _ H2 IH2]; try done.
    injection Hre as ->.
    apply matches_class in H1 as (c & -> & Hc).
    constructor; [done | by apply IH2].
  - induction 1 as [|c s Hc _ IH]; [constructor|].
    change (c :: s) with ([c] ++ s). constructor; [by constructor | done].
Qed.

Lemma matches_plus_class p s :
  matches (plus (Class p)) s ↔ s ≠ [] ∧ all_in p s.
Proof.
  unfold plus. rewrite matches_seq. split.
  - intros (s1 & s2 & -> & (c & -> & Hc)%matches_class
            & H2%matches_star_class).
    split; [done|]. by constructor.
  - intros [Hne Hall]. destruct s as [|c s]; [done|].
    apply Forall_cons in Hall as [Hc Hall].
    exists [c], s. split; [done|].
    split; [by constructor | by apply matches_star_class].
Qed.

Lemma matches_times_class p n s :
  matches (times n (Class p)) s ↔ length s = n ∧ all_in p s.
Proof.
  revert s. induction n as [|n IH]; intros s; simpl.
  - split.
    + inversion 1. by split; [|constructor].
    + intros [->%nil_length_inv _]. constructor.
  - rewrite matches_seq. split.
    + intros (s1 & s2 & -> & (c & -> & Hc)%matches_class & [Hl Ha]%IH).
      simpl. split; [by rewrite Hl | by constructor].
    + intros [Hl Ha]. destruct s as [|c s]; [done|].
      apply Forall_cons in Ha as [Hc Ha]. injection Hl as Hl.
      exists [c], s. split; [done|].
      split; [by constructor | by apply IH].
Qed.

Lemma matches_upto_class p n s :
  matches (upto n (Class p)) s ↔ length s ≤ n ∧ all_in p s.
Proof.
  revert s. induction n as [|n IH]; intros s; simpl.
  - split.
    + inversion 1. by split; [|constructor].
    + intros [Hl _]. destruct s; [constructor | simpl in Hl; lia].
  - split.
    + inversion 1 as [ | | | ? ? ? Hl | ? ? ? Hr | | ]; subst.
      * inversion Hl. split; [simpl; lia | constructor].
      * apply matches_seq in Hr
          as (s1 & s2 & -> & (c & -> & Hc)%matches_class & [Hl Ha]%IH).
        simpl. split; [lia | by constructor].
    + intros [Hl Ha]. destruct s as [|c s]; [apply MAltL; constructor|].
      apply Forall_cons in Ha as [Hc Ha]. simpl in Hl.
      apply MAltR, matches_seq. exists [c], s. split; [done|].
      split; [by constructor | apply IH; split; [lia | done]].
Qed.

Lemma matches_between_class p lo hi s :
  lo ≤ hi →
  matches (between lo hi (Class p)) s
  ↔ lo ≤ length s ≤ hi ∧ all_in p s.
Proof.
  intros Hlohi. unfold between. rewrite matches_seq. split.
  - intros (s1 & s2 & -> & [Hl1 Ha1]%matches_times_class
            & [Hl2 Ha2]%matches_upto_class).
    rewrite length_app. split; [lia | by apply Forall_app].
  - intros [Hl Ha]. exists (take lo s), (drop lo s).
    split; [by rewrite take_drop|]. split.
    + apply matches_times_class. rewrite length_take.
      split; [lia | by apply Forall_take].
    + apply matches_upto_class. rewrite length_drop.
      split; [lia | by apply Forall_drop].
Qed.

End RegexFacts.

Section ValidationFacts.
Import Markdown Shape Regex Validation Forms.

(** Turns a fact about classes of code units into arithmetic. *)
Ltac class_arith :=
  unfold is_word, is_letter, is_upper, is_lower, is_digit, is_email_unit,
    is_letter_or_space, is_space, AT, DOT, UNDERSCORE in *;
  repeat match goal with
         | H : negb _ = true |- _ => apply negb_true_iff in H
         | H : _ || _ = false |- _ => apply orb_false_iff in H as [? ?]
         | H : _ && _ = false |- _ => apply andb_false_iff in H
         | H : _ || _ = true |- _ => apply orb_true_iff in H
         | H : _ && _ = true |- _ => apply andb_true_iff in H as [? ?]
         | H : (_ <=? _)%N = true |- _ => apply N.leb_le in H
         | H : (_ <=? _)%N = false |- _ => apply N.leb_gt in H
         | H : (_ =? _)%N = true |- _ => apply N.eqb_eq in H
         | H : (_ =? _)%N = false |- _ => apply N.eqb_neq in H
         | H : _ ∨ _ |- _ => destruct H
         end;
  try lia.

Lemma word_not_space c : is_word c = true → is_space c = false.
Proof.
  intros Hw. destruct (is_space c) eqn:Hs; [|done]. exfalso.
  unfold is_space in Hs. class_arith.
Qed.

Lemma email_unit_not_space c : is_email_unit c = true → is_space c = false.
Proof.
  unfold is_email_unit. intros H%negb_true_iff.
  by apply orb_false_iff in H as [H _].
Qed.

Lemma no_space_trimmed (s : jsstring) :
  Forall (λ c, is_space c = false) s → trimmed s.
Proof.
  intros H. split; intros c Hc.
  - destruct s as [|x s]; [done|]. injection Hc as ->.
    by apply Forall_cons in H as [H _].
  - apply last_Some_elem_of in Hc. by eapply Forall_forall in H.
Qed.

Lemma trim_keeps (s : jsstring) : trimmed s → trim s = s.
Proof.
  intros [Hhead Hlast]. unfold trim.
  rewrite (drop_while_keeps is_space s) by done.
  rewrite drop_while_keeps; [apply reverse_involutive|].
  intros c Hc. rewrite head_reverse in Hc. by apply Hlast.
Qed.

Lemma drop_while_split p (s : jsstring) :
  ∃ k, s = k ++ drop_while p s ∧ all_in p k.
Proof.
  induction s as [|x rest (k & Hk & Hall)];
    [exists []; split; [done | constructor]|].
  simpl.
  destruct (p x) eqn:E; [|exists []; split; [done | constructor]].
  exists (x :: k). split; [simpl; by rewrite <- Hk | by constructor].
Qed.

(** [trim] removes white space at both ends, and only that. *)
Lemma trim_split (s : jsstring) :
  ∃ pre post,
    s = pre ++ trim s ++ post
    ∧ all_in is_space pre ∧ all_in is_space post.
Proof.
  destruct (drop_while_split is_space s) as (pre & Hs & Hpre).
  destruct (drop_while_split is_space (reverse (drop_while is_space s)))
    as (k & Hk & Hall).
  exists pre, (reverse k). split; [|split; [done|]].
  - unfold trim. rewrite <- reverse_app, <- Hk, reverse_involutive.
    exact Hs.
  - by apply Forall_reverse.
Qed.

Lemma existsb_all_space p (s : jsstring) :
  (∀ c, p c = true → is_space c = false) →
  all_in is_space s → existsb p s = false.
Proof.
  intros Hp. induction 1 as [|c s Hc _ IH]; [done|]. simpl.
  rewrite IH, orb_false_r.
  destruct (p c) eqn:E; [|done]. apply Hp in E. congruence.
Qed.

Lemma existsb_trim p (s : jsstring) :
  (∀ c, p c = true → is_space c = false) →
  existsb p (trim s) = existsb p s.
Proof.
  intros Hp. destruct (trim_split s) as (pre & post & Hs & Hpre & Hpost).
  rewrite Hs at 2. rewrite !existsb_app.
  rewrite (existsb_all_space p pre), (existsb_all_space p post) by done.
  by rewrite orb_false_r.
Qed.

Lemma drop_while_all p (a b : jsstring) :
  all_in p a → drop_while p (a ++ b) = drop_while p b.
Proof.
  induction 1 as [|c a Hc _ IH]; [done|]. simpl. by rewrite Hc.
Qed.

Lemma drop_while_app p (a b : jsstring) :
  drop_while p a ≠ [] → drop_while p (a ++ b) = drop_while p a ++ b.
Proof.
  induction a as [|c a IH]; [done|]. simpl.
  destruct (p c); [apply IH | done].
Qed.

Lemma drop_while_nil p (a : jsstring) :
  drop_while p a = [] → all_in p a.
Proof.
  induction a as [|c a IH]; [constructor|]. simpl.
  destruct (p c) eqn:E; [|done]. intros H. constructor; [done | by apply IH].
Qed.

(** White space around a text does not change what [trim] gives. *)
Lemma trim_padded (pre t post : jsstring) :
  all_in is_space pre → all_in is_space post →
  trim (pre ++ t ++ post) = trim t.
Proof.
  intros Hpre Hpost. unfold trim.
  rewrite drop_while_all by done.
  destruct (drop_while is_space t) as [|x d] eqn:E.
  - rewrite drop_while_all; [|by apply drop_while_nil].
    assert (Hd : drop_while is_space post = []).
    { rewrite <- (app_nil_r post). by rewrite drop_while_all. }
    by rewrite Hd.
  - rewrite drop_while_app by (by rewrite E). rewrite E.
    rewrite reverse_app. rewrite drop_while_all; [done|].
    by apply Forall_reverse.
Qed.

Lemma isValidUsername_inv (u : jsstring) :
  isValidUsername u = true ↔
  ∃ c rest, u = c :: rest ∧ is_letter c = true
            ∧ all_in is_word rest ∧ 2 ≤ length rest ≤ 19.
Proof.
  unfold isValidUsername, usernameRegex.
  rewrite accepts_matches, matches_seq. split.
  - intros (s1 & s2 & -> & (c & -> & Hc)%matches_class & H2).
    apply matches_between_class in H2 as [Hl Ha]; [|lia].
    by exists c, s2.
  - intros (c & rest & -> & Hc & Ha & Hl).
    exists [c], rest. split; [done|]. split; [by constructor|].
    apply matches_between_class; [lia | done].
Qed.

Lemma isValidEmail_inv (e : jsstring) :
  isValidEmail e = true ↔
  ∃ l d t, e = l ++ AT :: d ++ DOT :: t
           ∧ l ≠ [] ∧ d ≠ [] ∧ t ≠ []
           ∧ all_in is_email_unit l ∧ all_in is_email_unit d
           ∧ all_in is_email_unit t.
Proof.
  unfold isValidEmail, emailRegex. rewrite accepts_matches. split.
  - intros (l & r1 & -> & [Hl Hla]%matches_plus_class & H)%matches_seq.
    apply matches_seq in H as (a & r2 & -> & (x & -> & Hx)%matches_class & H).
    apply matches_seq in H as (d & r3 & -> & [Hd Hda]%matches_plus_class & H).
    apply matches_seq
      in H as (b & t & -> & (y & -> & Hy)%matches_class
               & [Ht Hta]%matches_plus_class).
    apply N.eqb_eq in Hx, Hy. subst x y. by exists l, d, t.
  - intros (l & d & t & -> & Hl & Hd & Ht & Hla & Hda & Hta).
    apply matches_seq. exists l, (AT :: d ++ DOT :: t).
    split; [done|]. split; [by apply matches_plus_class|].
    apply matches_seq. exists [AT], (d ++ DOT :: t).
    split; [done|]. split; [by constructor|].
    apply matches_seq. exists d, (DOT :: t).
    split; [done|]. split; [by apply matches_plus_class|].
    apply matches_seq. exists [DOT], t.
    split; [done|]. split; [by constructor | by apply matches_plus_class].
Qed.

Lemma valid_username_no_space (u : jsstring) :
  isValidUsername u = true → Forall (λ c, is_space c = false) u.
Proof.
  intros (c & rest & -> & Hc & Ha & _)%isValidUsername_inv.
  constructor.
  - apply word_not_space. unfold is_word. by rewrite Hc.
  - eapply Forall_impl; [exact Ha|]. intros x. apply word_not_space.
Qed.

Lemma valid_email_no_space (e : jsstring) :
  isValidEmail e = true → Forall (λ c, is_space c = false) e.
Proof.
  intros (l & d & t & -> & _ & _ & _ & Hl & Hd & Ht)%isValidEmail_inv.
  assert (Hunit : ∀ s, all_in is_email_unit s →
                       Forall (λ c, is_space c = false) s).
  { intros s Hs. eapply Forall_impl; [exact Hs|].
    intros x. apply email_unit_not_space. }
  apply Forall_app. split; [by apply Hunit|].
  constructor; [done|].
  apply Forall_app. split; [by apply Hunit|].
  constructor; [done | by apply Hunit].
Qed.

Lemma upper_not_space c : is_upper c = true → is_space c = false.
Proof.
  intros Hu. destruct (is_space c) eqn:Hs; [|done]. exfalso.
  unfold is_space in Hs. class_arith.
Qed.

Lemma lower_not_space c : is_lower c = true → is_space c = false.
Proof.
  intros Hu. destruct (is_space c) eqn:Hs; [|done]. exfalso.
  unfold is_space in Hs. class_arith.
Qed.

Lemma digit_not_space c : is_digit c = true → is_space c = false.
Proof.
  intros Hu. destruct (is_space c) eqn:Hs; [|done]. exfalso.
  unfold is_space in Hs. class_arith.
Qed.

Lemma special_not_space c : is_special c = true → is_space c = false.
Proof.
  unfold is_special. simpl. intros H.
  repeat (apply orb_true_iff in H as [H|H];
          [apply N.eqb_eq in H; by subst c|]).
  done.
Qed.

Lemma isValidPassword_inv (p : jsstring) :
  isValidPassword p = true →
  8 ≤ length p ∧ existsb is_upper p = true ∧ existsb is_lower p = true
  ∧ existsb is_digit p = true ∧ existsb is_special p = true.
Proof.
  unfold isValidPassword. destruct (length p <? 8) eqn:E; [done|].
  apply Nat.ltb_ge in E.
  intros [[[H1 H2]%andb_prop H3]%andb_prop H4]%andb_prop. done.
Qed.

Lemma existsb_not_blank p (s : jsstring) :
  existsb p s = true → blank s = false.
Proof. by destruct s. Qed.

End ValidationFacts.

(** X21: [isValidEmail] accepts exactly the texts made of a local part,
    an at sign, a domain, a dot and an ending, where the three parts are
    not empty and hold neither white space nor an at sign (dots are
    allowed in each part). *)
Theorem isValidEmail_meaning (email : Markdown.jsstring) :
  Validation.isValidEmail email = true ↔
  ∃ l d t : Markdown.jsstring,
    email = l ++ Validation.AT :: d ++ Validation.DOT :: t
    ∧ l ≠ [] ∧ d ≠ [] ∧ t ≠ []
    ∧ Regex.all_in Validation.is_email_unit l
    ∧ Regex.all_in Validation.is_email_unit d
    ∧ Regex.all_in Validation.is_email_unit t.
Proof. apply isValidEmail_inv. Qed.

(** X22: [isValidUsername] accepts exactly the texts that start with a
    letter and go on with 2 to 19 letters, digits or underscores, 3 to 20
    units in all. *)
Theorem isValidUsername_meaning (username : Markdown.jsstring) :
  Validation.isValidUsername username = true ↔
  ∃ (c : N) (rest : Markdown.jsstring),
    username = c :: rest
    ∧ Validation.is_letter c = true
    ∧ Regex.all_in Validation.is_word rest
    ∧ 2 ≤ length rest ≤ 19
    ∧ 3 ≤ length username ≤ 20.
Proof.
  rewrite isValidUsername_inv. split.
  - intros (c & rest & -> & Hc & Ha & Hl). exists c, rest.
    simpl. repeat split; try done; lia.
  - intros (c & rest & -> & Hc & Ha & Hl & _). by exists c, rest.
Qed.

(** X23: what the register page sends when its form is valid: the
    username and the e-mail address are sent as they were validated
    (trimming changes neither), each name sent has at least two units,
    all letters or white space, with no white space at either end, and the
    password sent still holds an upper-case letter, a lower-case letter, a
    digit and a special sign. *)
Theorem registration_sends_validated_data (formData : Forms.RegisterForm) :
  (Forms.register_validateForm formData).2 = true →
  let sent := Forms.registrationData formData in
  (Forms.username sent = Forms.username formData
   ∧ Validation.isValidUsername (Forms.username sent) = true)
  ∧ (Forms.email sent = Forms.email formData
     ∧ Validation.isValidEmail (Forms.email sent) = true)
  ∧ (2 ≤ length (Forms.firstName sent)
     ∧ Regex.all_in Forms.is_letter_or_space (Forms.firstName sent)
     ∧ Shape.trimmed (Forms.firstName sent))
  ∧ (2 ≤ length (Forms.lastName sent)
     ∧ Regex.all_in Forms.is_letter_or_space (Forms.lastName sent)
     ∧ Shape.trimmed (Forms.lastName sent))
  ∧ (existsb Validation.is_upper (Forms.password sent) = true
     ∧ existsb Validation.is_lower (Forms.password sent) = true
     ∧ existsb Validation.is_digit (Forms.password sent) = true
     ∧ existsb Validation.is_special (Forms.password sent) = true).
Proof.
  unfold Forms.register_validateForm. simpl. intros H.
  destruct (Forms.blank (Markdown.trim (Forms.firstName formData)));
    [done|].
  destruct (length (Markdown.trim (Forms.firstName formData)) <? 2) eqn:F2;
    [done|].
  destruct (Regex.accepts Forms.lettersRegex
              (Markdown.trim (Forms.firstName formData))) eqn:F3; [|done].
  destruct (Forms.blank (Markdown.trim (Forms.lastName formData)));
    [done|].
  destruct (length (Markdown.trim (Forms.lastName formData)) <? 2) eqn:L2;
    [done|].
  destruct (Regex.accepts Forms.lettersRegex
              (Markdown.trim (Forms.lastName formData))) eqn:L3; [|done].
  destruct (Validation.isValidUsername (Forms.username formData)) eqn:U;
    [|done].
  destruct (Validation.isValidEmail (Forms.email formData)) eqn:E; [|done].
  destruct (Validation.isValidPassword (Forms.password formData)) eqn:P;
    [|done].
  clear H.
  assert (Hu : Markdown.trim (Forms.username formData)
               = Forms.username formData).
  { by apply trim_keeps, no_space_trimmed, valid_username_no_space. }
  assert (He : Markdown.trim (Forms.email formData) = Forms.email formData).
  { by apply trim_keeps, no_space_trimmed, valid_email_no_space. }
  apply Nat.ltb_ge in F2, L2.
  apply accepts_matches, matches_plus_class in F3 as [_ F3].
  apply accepts_matches, matches_plus_class in L3 as [_ L3].
  apply isValidPassword_inv in P as (_ & P1 & P2 & P3 & P4).
  rewrite Hu, He.
  repeat split; try done; try apply trim_trimmed.
  - rewrite existsb_trim; [done | apply upper_not_space].
  - rewrite existsb_trim; [done | apply lower_not_space].
  - rewrite existsb_trim; [done | apply digit_not_space].
  - rewrite existsb_trim; [done | apply special_not_space].
Qed.

Lemma registration_sends_validated_data_witness :
  Forms.username (Forms.registrationData sample_registration)
  = Markdown.js "bob_1"
  ∧ Forms.firstName (Forms.registrationData sample_registration)
    = Markdown.js "Al"
  ∧ existsb Validation.is_special
      (Forms.password (Forms.registrationData sample_registration)) = true.
Proof.
  pose proof (registration_sends_validated_data sample_registration
                ltac:(vm_compute; reflexivity))
    as ((Hu & _) & _ & _ & _ & (_ & _ & _ & Hs)).
  split; [exact Hu|]. split; [vm_compute; reflexivity | exact Hs].
Defined.

(** X24: a password the register page accepts is accepted by the login
    page as it is typed: whenever [isValidPassword] holds and the
    identifier is not blank, [validateForm] of the login page returns
    true, and the password it sends still holds the four kinds of
    sign. *)
Theorem registered_password_passes_login_form
    (emailOrUsername password : Markdown.jsstring) :
  Validation.isValidPassword password = true →
  Forms.blank (Markdown.trim emailOrUsername) = false →
  Forms.login_validateForm emailOrUsername password = None
  ∧ existsb Validation.is_upper
      (Forms.login_payload emailOrUsername password).2 = true
  ∧ existsb Validation.is_lower
      (Forms.login_payload emailOrUsername password).2 = true
  ∧ existsb Validation.is_digit
      (Forms.login_payload emailOrUsername password).2 = true
  ∧ existsb Validation.is_special
      (Forms.login_payload emailOrUsername password).2 = true.
Proof.
  intros (Hlen & P1 & P2 & P3 & P4)%isValidPassword_inv Hid.
  assert (U : existsb Validation.is_upper (Markdown.trim password) = true).
  { rewrite existsb_trim; [done | apply upper_not_space]. }
  unfold Forms.login_validateForm, Forms.login_payload. simpl.
  rewrite Hid, (existsb_not_blank _ _ U).
  replace (length password <? 6) with false
    by (symmetry; apply Nat.ltb_ge; lia).
  split; [done|]. split; [done|].
  split; [|split].
  - rewrite existsb_trim; [done | apply lower_not_space].
  - rewrite existsb_trim; [done | apply digit_not_space].
  - rewrite existsb_trim; [done | apply special_not_space].
Qed.

Lemma registered_password_passes_login_form_witness :
  Forms.login_validateForm (Markdown.js "bob_1") (Markdown.js " Abcdef1! ")
  = None.
Proof.
  exact (proj1 (registered_password_passes_login_form
                  (Markdown.js "bob_1") (Markdown.js " Abcdef1! ")
                  ltac:(vm_compute; reflexivity)
                  ltac:(vm_compute; reflexivity))).
Defined.

(** X25: the two note validators look at the trimmed text only: white
    space put around a title or a content changes neither verdict, and a
    text of white space alone is rejected by both. *)
Theorem note_validators_ignore_padding
    (pre t post : Markdown.jsstring) :
  Regex.all_in Markdown.is_space pre →
  Regex.all_in Markdown.is_space post →
  Validation.isValidNoteTitle (pre ++ t ++ post)
  = Validation.isValidNoteTitle t
  ∧ Validation.isValidNoteContent (pre ++ t ++ post)
    = Validation.isValidNoteContent t
  ∧ Validation.isValidNoteTitle (pre ++ post) = false
  ∧ Validation.isValidNoteContent (pre ++ post) = false.
Proof.
  intros Hpre Hpost.
  unfold Validation.isValidNoteTitle, Validation.isValidNoteContent.
  rewrite !trim_padded by done.
  change (pre ++ post) with (pre ++ [] ++ post).
  rewrite !trim_padded by done. done.
Qed.

Lemma note_validators_ignore_padding_witness :
  Validation.isValidNoteTitle (Markdown.js "  " ++ Markdown.js "Shopping"
                                 ++ [Markdown.NEWLINE])
  = Validation.isValidNoteTitle (Markdown.js "Shopping")
  ∧ Validation.isValidNoteTitle (Markdown.js "  " ++ [Markdown.NEWLINE])
    = false.
Proof.
  pose proof (note_validators_ignore_padding (Markdown.js "  ")
                (Markdown.js "Shopping") [Markdown.NEWLINE]
                ltac:(repeat constructor) ltac:(repeat constructor))
    as (Ht & _ & Hb & _).
  split; [exact Ht | exact Hb].
Defined.

(** ** The notes page *)

Section NotesPageFacts.
Import NoteStore NotesPage.
Variable timeSlot : Note → option string.

Lemma timeSlots_cases (slot : string) :
  slot ∈ timeSlots →
  slot = "9:00" ∨ slot = "10:00" ∨ slot = "11:00" ∨ slot = "13:00"
  ∨ slot = "14:00".
Proof.
  unfold timeSlots. rewrite !elem_of_cons, elem_of_nil. tauto.
Qed.

Lemma empty_slots_lookup (slot : string) :
  slot ∈ timeSlots → empty_slots !! slot = Some [].
Proof.
  intros H. apply timeSlots_cases in H.
  destruct H as [->|[->|[->|[->| ->]]]]; reflexivity.
Qed.

Lemma timeSlots_truthy (slot : string) :
  slot ∈ timeSlots → Js.truthy_str (Some slot) = true.
Proof.
  intros H. apply timeSlots_cases in H.
  destruct H as [->|[->|[->|[->| ->]]]]; reflexivity.
Qed.

(** The test of line 235, read as a property of the note. *)
Lemma place_test_true (note : Note) :
  Js.truthy_str (timeSlot note)
  && bool_decide (default "" (timeSlot note) ∈ timeSlots) = true →
  assigned_to timeSlot (default "" (timeSlot note)) note.
Proof.
  intros [Ht Hin]%andb_prop. apply bool_decide_eq_true in Hin.
  split; [|done]. by destruct (timeSlot note).
Qed.

Lemma place_test_false (note : Note) :
  Js.truthy_str (timeSlot note)
  && bool_decide (default "" (timeSlot note) ∈ timeSlots) = false →
  unassigned timeSlot note.
Proof.
  intros Hf slot [Hts Hin]. rewrite Hts in Hf. simpl default in Hf.
  rewrite (timeSlots_truthy slot Hin) in Hf.
  by rewrite bool_decide_eq_true_2 in Hf.
Qed.

Lemma assigned_to_unique (s1 s2 : string) (note : Note) :
  assigned_to timeSlot s1 note → assigned_to timeSlot s2 note → s1 = s2.
Proof. intros [H1 _] [H2 _]. congruence. Qed.

Lemma filter_snoc_in (slot : string) (notes : list Note) (note : Note) :
  assigned_to timeSlot slot note →
  filter (assigned_to timeSlot slot) (notes ++ [note])
  = filter (assigned_to timeSlot slot) notes ++ [note].
Proof.
  intros H. rewrite filter_app. f_equal.
  by rewrite filter_cons, decide_True.
Qed.

Lemma filter_snoc_out (slot : string) (notes : list Note) (note : Note) :
  ¬ assigned_to timeSlot slot note →
  filter (assigned_to timeSlot slot) (notes ++ [note])
  = filter (assigned_to timeSlot slot) notes.
Proof.
  intros H. rewrite filter_app, filter_cons, decide_False by done.
  apply app_nil_r.
Qed.

Lemma extra_grows (notes : list Note) (note : Note) (extra : list Note) :
  Forall (λ n, unassigned timeSlot n ∧ n ∈ notes) extra →
  Forall (λ n, unassigned timeSlot n ∧ n ∈ notes ++ [note]) extra.
Proof.
  intros H. eapply Forall_impl; [exact H|].
  intros n [Hu Hn]. split; [done|].
  apply elem_of_app. by left.
Qed.

Lemma place_slots_filled (notes : list Note) (note : Note)
    (organized : gmap string (list Note)) :
  slots_filled timeSlot notes organized →
  slots_filled timeSlot (notes ++ [note]) (place timeSlot organized note).
Proof.
  intros Hinv slot Hslot. unfold place.
  destruct (Hinv slot Hslot) as (extra & Hlook & Hlen & Hextra).
  destruct (Js.truthy_str (timeSlot note) && _) eqn:Htest.
  - apply place_test_true in Htest. unfold push.
    destruct (decide (default "" (timeSlot note) = slot)) as [Heq|Hne].
    + rewrite Heq in Htest |- *. exists extra.
      rewrite lookup_insert_eq, Hlook. simpl.
      rewrite filter_snoc_in by done. rewrite app_assoc.
      split; [done|]. split; [done | by apply extra_grows].
    + exists extra. rewrite lookup_insert_ne by done.
      rewrite filter_snoc_out.
      * split; [done|]. split; [done | by apply extra_grows].
      * intros Hslot'. apply Hne.
        by apply (assigned_to_unique _ _ note).
  - apply place_test_false in Htest. unfold place_in_first_empty.
    destruct (List.find _ timeSlots) as [s|] eqn:Hfind.
    + apply List.find_some in Hfind as [Hs Hempty].
      apply list_elem_of_In in Hs. apply Nat.eqb_eq in Hempty.
      unfold push.
      destruct (decide (s = slot)) as [->|Hne].
      * rewrite Hlook in Hempty |- *. simpl in Hempty.
        apply nil_length_inv, app_eq_nil in Hempty as [-> Hnone].
        exists [note]. rewrite lookup_insert_eq. simpl.
        rewrite filter_snoc_out by apply Htest. rewrite Hnone.
        split; [done|]. split; [simpl; lia|].
        constructor; [|constructor]. split; [done|].
        apply elem_of_app. right. by left.
      * exists extra. rewrite lookup_insert_ne by done.
        rewrite filter_snoc_out by apply Htest.
        split; [done|]. split; [done | by apply extra_grows].
    + exists extra. rewrite filter_snoc_out by apply Htest.
      split; [done|]. split; [done | by apply extra_grows].
Qed.

Lemma organize_slots_filled (notes : list Note) :
  slots_filled timeSlot notes (organizeNotesByTime timeSlot notes).
Proof.
  unfold organizeNotesByTime.
  induction notes as [|note notes IH] using rev_ind.
  - intros slot Hslot. exists []. simpl.
    split; [by apply empty_slots_lookup|]. split; [lia | constructor].
  - rewrite foldl_snoc. by apply place_slots_filled.
Qed.

End NotesPageFacts.

(** X26: how the notes page fills its five time slots: each slot shows
    every note of the list that is assigned to it, in the order of the
    list, behind at most one note that has no slot of its own; so a note
    with a slot is always shown, in its slot, and of the notes without
    one at most one per slot is shown. *)
Theorem slots_show_assigned_notes
    (timeSlot : NoteStore.Note → option string)
    (notes : list NoteStore.Note) (slot : string) :
  slot ∈ NotesPage.timeSlots →
  ∃ extra,
    NotesPage.organizeNotesByTime timeSlot notes !! slot
    = Some (extra ++ filter (NotesPage.assigned_to timeSlot slot) notes)
    ∧ length extra ≤ 1
    ∧ Forall (λ n, NotesPage.unassigned timeSlot n ∧ n ∈ notes) extra.
Proof. intros Hslot. by apply organize_slots_filled. Qed.

Lemma slots_show_assigned_notes_witness :
  NotesPage.organizeNotesByTime slot_by_id sample_day !! "10:00"
  = Some [sample_note "y" "Y" false; sample_note "10:00" "Ten" false;
          sample_note "10:00" "Ten again" false]
  ∧ ∃ extra,
      NotesPage.organizeNotesByTime slot_by_id sample_day !! "10:00"
      = Some (extra
              ++ filter (NotesPage.assigned_to slot_by_id "10:00") sample_day)
      ∧ length extra ≤ 1
      ∧ Forall (λ n, NotesPage.unassigned slot_by_id n ∧ n ∈ sample_day)
          extra.
Proof.
  split; [vm_compute; reflexivity|].
  apply (slots_show_assigned_notes slot_by_id sample_day "10:00").
  unfold NotesPage.timeSlots. rewrite !elem_of_cons. tauto.
Defined.
